(** * UHD logging core ([host/lib/utils/log.cpp]): shallow embedding and properties

    The development follows the source file top to bottom: colour table and
    helpers, the two built-in backends (console and file), the process-wide
    [log_resource] with its consumer task, and the scoped [log] statement
    object.  Sink invocations are recorded as a trace of [sink_call] events;
    streams ([std::clog], [std::cerr], the file stream) are the text
    appended to them. *)

From Stdlib Require Import ZArith Ascii DecimalString.
From stdpp Require Import gmap strings list fin_maps sorting.

Local Open Scope string_scope.
Local Open Scope Z_scope.
Local Open Scope stdpp_scope.
Local Open Scope list_scope.

(** ** Severity scale *)

(** Modelled from the spec: the enumeration [uhd::log::severity_level] is
    declared in [uhd/utils/log.hpp], outside [log.cpp].  The spec gives the
    enumerators in increasing order, compared numerically on their ordinal
    position. *)
Inductive severity_level : Set :=
  trace | debug | info | warning | error | fatal | off.

Definition severity_ord (l : severity_level) : Z :=
  match l with
  | trace => 0 | debug => 1 | info => 2 | warning => 3
  | error => 4 | fatal => 5 | off => 6
  end.

(** The cast [uhd::log::severity_level(n)] on the values that name an
    enumerator. *)
Definition severity_of_ord (n : Z) : option severity_level :=
  match n with
  | 0 => Some trace | 1 => Some debug | 2 => Some info | 3 => Some warning
  | 4 => Some error | 5 => Some fatal | 6 => Some off
  | _ => None
  end.

(** [a >= b] and [a < b] on severities. *)
Definition severity_geb (a b : severity_level) : bool :=
  severity_ord b <=? severity_ord a.
Definition severity_ltb (a b : severity_level) : bool :=
  severity_ord a <? severity_ord b.

#[global] Instance severity_level_eq_dec : EqDecision severity_level.
Proof. solve_decision. Defined.

(** ** Text helpers *)

Definition endl : string := String "010"%char EmptyString.
Definition ESC : string := String "027"%char EmptyString.

Definition PURPLE : string := ESC +:+ "[35;1m".
Definition BLUE : string := ESC +:+ "[34;1m".
Definition GREEN : string := ESC +:+ "[32;1m".
Definition YELLOW : string := ESC +:+ "[33;1m".
Definition RED : string := ESC +:+ "[31;0m".
Definition BRED : string := ESC +:+ "[31;1m".
Definition RESET_COLORS : string := ESC +:+ "[39;0m".

Definition verbosity_color (level : severity_level) : string :=
  match level with
  | trace => PURPLE
  | debug => BLUE
  | info => GREEN
  | warning => YELLOW
  | error => RED
  | fatal => BRED
  | _ => RESET_COLORS
  end.

(** [std::string::npos] and [size_t] arithmetic (64-bit). *)
Definition size_t_modulus : Z := 2 ^ 64.
Definition npos : Z := size_t_modulus - 1.

(** [s.find_last_of(chars)]: the largest index holding one of [chars],
    [npos] when there is none.  [i] is the index of the head of [s]. *)
Fixpoint find_last_of_from (chars : list ascii) (s : string) (i : Z) : Z :=
  match s with
  | EmptyString => npos
  | String c rest =>
      let later := find_last_of_from chars rest (i + 1) in
      if later =? npos
      then (if bool_decide (c ∈ chars) then i else npos)
      else later
  end.

Definition find_last_of (chars : list ascii) (s : string) : Z :=
  find_last_of_from chars s 0.

(** [s.substr(pos)] for [pos <= s.size()]. *)
Fixpoint substr (s : string) (pos : nat) : string :=
  match pos, s with
  | O, _ => s
  | S p, String _ rest => substr rest p
  | S _, EmptyString => EmptyString
  end.

(** get the relative file path from the host directory *)
Definition path_to_filename (path : string) : string :=
  substr path
    (Z.to_nat ((find_last_of ["/"%char; "\"%char] path + 1) mod size_t_modulus)).

(** [operator<<] for [unsigned int]. *)
Definition put_uint (n : N) : string := NilZero.string_of_uint (N.to_uint n).

(** ** Failure and internal diagnostics *)

(** The exceptions that the modelled code can meet. *)
Inductive exn : Set :=
| std_invalid_argument            (* std::stoi: no conversion *)
| std_out_of_range                (* std::stoi: value does not fit an int *)
| ios_failure (what : string)     (* std::ofstream::failure *)
| recursive_init_error.           (* log_rs() entered while under construction *)

(** A statement completed through [UHD_LOGGER_ERROR(component) << ...]. *)
Record log_statement : Set := mk_log_statement {
  ls_severity : severity_level;
  ls_component : string;
  ls_message : string
}.

(** Computations that either throw or return a value together with the
    internal log statements they completed, in order. *)
Inductive result (A : Type) : Type :=
| Return (a : A) (issued : list log_statement)
| Throw (e : exn).
Arguments Return {A} a issued.
Arguments Throw {A} e.

#[global] Instance result_ret : MRet result := λ A a, Return a [].
#[global] Instance result_bind : MBind result := λ A B f m,
  match m with
  | Return a l1 =>
      match f a with
      | Return b l2 => Return b (l1 ++ l2)
      | Throw e => Throw e
      end
  | Throw e => Throw e
  end.

(** A computation that does not throw. *)
Definition returns {A} (m : result A) : Prop :=
  ∃ a issued, m = Return a issued.

(** The accessor [log_rs()] (log.cpp:294) entered while the resource it
    holds is still being constructed, by the thread that constructs it: the
    initialisation of the function-local static is entered a second time
    and cannot complete. *)
Definition log_rs_reentered {A : Type} : result A :=
  Throw recursive_init_error.

(** [UHD_LOGGER_ERROR(component) << message] where [log.cpp] has it: in
    [_get_log_level], a private member called from the constructor of
    [log_resource] alone.  The macro makes a [uhd::_log::log], whose
    constructor begins with [log_rs().global_level] (log.cpp:307); the
    resource is under construction then, so the statement is never
    completed and control does not come back. *)
Definition UHD_LOGGER_ERROR (component message : string) : result unit :=
  log_rs_reentered.

(** ** [std::stoi] *)

Definition INT_MAX : Z := 2147483647.
Definition INT_MIN : Z := -2147483648.

Definition char_code (c : ascii) : Z := Z.of_N (N_of_ascii c).

(** [std::isdigit] and [std::isspace] in the "C" locale. *)
Definition isdigit (c : ascii) : bool :=
  (48 <=? char_code c) && (char_code c <=? 57).
Definition isspace (c : ascii) : bool :=
  (char_code c =? 32) || ((9 <=? char_code c) && (char_code c <=? 13)).

Fixpoint skip_spaces (s : string) : string :=
  match s with
  | String c rest => if isspace c then skip_spaces rest else s
  | EmptyString => s
  end.

(** Value of the longest prefix of decimal digits, continuing from [acc]. *)
Fixpoint parse_digits (s : string) (acc : Z) : Z :=
  match s with
  | String c rest =>
      if isdigit c then parse_digits rest (10 * acc + (char_code c - 48))
      else acc
  | EmptyString => acc
  end.

Definition starts_with_digit (s : string) : bool :=
  match s with
  | String c _ => isdigit c
  | EmptyString => false
  end.

(** [std::stoi(s)]: base 10, leading white space and an optional sign are
    skipped, trailing characters are ignored. *)
Definition stoi (s : string) : result Z :=
  let s1 := skip_spaces s in
  let '(negative, s2) :=
    match s1 with
    | String "-"%char rest => (true, rest)
    | String "+"%char rest => (false, rest)
    | _ => (false, s1)
    end in
  if starts_with_digit s2 then
    let magnitude := parse_digits s2 0 in
    let value := if negative then - magnitude else magnitude in
    if (INT_MIN <=? value) && (value <=? INT_MAX)
    then mret value
    else Throw std_out_of_range
  else Throw std_invalid_argument.

(** [s[0]] on a [const std::string&]: the terminating NUL when [s] is empty. *)
Definition string_front (s : string) : ascii :=
  match s with
  | String c _ => c
  | EmptyString => "000"%char
  end.

(** ** Build configuration (preprocessor macros) *)

Record build_macros : Set := mk_build_macros {
  UHD_LOG_CONSOLE_COLOR : bool;
  UHD_LOG_CONSOLE_TIME : bool;
  UHD_LOG_CONSOLE_THREAD : bool;
  UHD_LOG_CONSOLE_SRC : bool;
  UHD_LOG_MIN_LEVEL : option string;
  UHD_LOG_CONSOLE_DISABLE : bool;
  UHD_LOG_CONSOLE_LEVEL : option string;
  UHD_LOG_FILE_LEVEL : option string;
  UHD_LOG_FILE_PATH : bool;
  UHD_LOG_FILE : option string
}.

(** [BOOST_STRINGIZE(NAME)]: the expansion when [NAME] is defined, the
    name itself otherwise. *)
Definition BOOST_STRINGIZE (name : string) (definition : option string) : string :=
  default name definition.

(** ** Output file stream *)

Record ofstream : Set := mk_ofstream {
  is_open : bool;
  written : string      (* what has been put on the stream *)
}.

(** [stream.open(path, out | app)] on a stream that is not open and whose
    exception mask holds [failbit | badbit].  [fs path] is [None] when the
    file system lets the path be opened for appending and the failure text
    otherwise. *)
Definition ofstream_open (fs : string → option string) (path : string)
    (s : ofstream) : result ofstream :=
  match fs path with
  | None => mret (mk_ofstream true (written s))
  | Some what => Throw (ios_failure what)
  end.

(** ** Bounded queue *)

(** Modelled from the spec: [uhd::transport::bounded_buffer] is declared in
    [uhd/transport/bounded_buffer.hpp], outside [log.cpp].  The spec
    describes a fixed-capacity FIFO whose non-blocking push never stalls
    the producer and, at capacity, either drops the incoming record or
    evicts the oldest; both policies are kept. *)
Inductive overflow_policy : Set := drop_newest | evict_oldest.

Record bounded_buffer (A : Type) : Type := mk_bounded_buffer {
  capacity : nat;
  elems : list A        (* head = oldest *)
}.
Arguments mk_bounded_buffer {A} capacity elems.
Arguments capacity {A} b.
Arguments elems {A} b.

Definition push_with_haste {A} (policy : overflow_policy) (x : A)
    (q : bounded_buffer A) : bounded_buffer A * bool :=
  if (length (elems q) <? capacity q)%nat
  then (mk_bounded_buffer (capacity q) (elems q ++ [x]), true)
  else match policy with
       | drop_newest => (q, false)
       | evict_oldest =>
           (mk_bounded_buffer (capacity q)
              (match capacity q with O => [] | S _ => tail (elems q) ++ [x] end),
            match capacity q with O => false | S _ => true end)
       end.

(** [pop_with_haste(elem)]: returns at once, [None] standing for [false]. *)
Definition pop_with_haste {A} (q : bounded_buffer A) : option A * bounded_buffer A :=
  match elems q with
  | x :: rest => (Some x, mk_bounded_buffer (capacity q) rest)
  | [] => (None, q)
  end.

(** [pop_with_timed_wait(elem, timeout)] with no producer running during
    the wait: an empty queue stays empty until the timeout. *)
Definition pop_with_timed_wait {A} (q : bounded_buffer A) : option A * bounded_buffer A :=
  match elems q with
  | x :: rest => (Some x, mk_bounded_buffer (capacity q) rest)
  | [] => (None, q)
  end.

(** ** Log records, backends and the logger resource *)

Section Logger.

(** External collaborators: the time stamp and thread identifier types
    with their text renderings, and the stream operator of
    [severity_level] (all declared outside [log.cpp]). *)
Context {ptime thread_id_t : Type}.
Context (to_simple_string : ptime → string).
Context (put_thread_id : thread_id_t → string).
Context (put_severity : severity_level → string).

Record logging_info : Type := mk_logging_info {
  time : ptime;
  verbosity : severity_level;
  file : string;
  line : N;
  component : string;
  thread_id : thread_id_t;
  message : string
}.

Definition set_message (log_info : logging_info) (m : string) : logging_info :=
  mk_logging_info (time log_info) (verbosity log_info) (file log_info)
    (line log_info) (component log_info) (thread_id log_info) m.

(** *** Logger backends *)

(** [console_log]: the text put on [std::clog]. *)
Definition console_log (macros : build_macros) (log_info : logging_info)
    (clog : string) : string :=
  clog
  +:+ (if UHD_LOG_CONSOLE_COLOR macros
       then verbosity_color (verbosity log_info) else "")
  +:+ (if UHD_LOG_CONSOLE_TIME macros
       then "[" +:+ to_simple_string (time log_info) +:+ "] " else "")
  +:+ (if UHD_LOG_CONSOLE_THREAD macros
       then "[0x" +:+ put_thread_id (thread_id log_info) +:+ "] " else "")
  +:+ (if UHD_LOG_CONSOLE_SRC macros
       then "[" +:+ path_to_filename (file log_info) +:+ ":"
            +:+ put_uint (line log_info) +:+ "] "
       else "")
  +:+ "[" +:+ put_severity (verbosity log_info) +:+ "] "
  +:+ "[" +:+ component log_info +:+ "] "
  +:+ (if UHD_LOG_CONSOLE_COLOR macros then RESET_COLORS else "")
  +:+ message log_info
  +:+ endl.

(** Helper class to implement file logging. *)
Record file_logger_backend : Set := mk_file_logger_backend {
  _file_stream : ofstream
}.

(** Constructor; the second component is [std::cerr] afterwards. *)
Definition file_logger_backend_ctor (fs : string → option string)
    (file_path : string) (cerr : string) : result (file_logger_backend * string) :=
  let _file_stream := mk_ofstream false "" in
  if bool_decide (file_path ≠ "") then
    match ofstream_open fs file_path _file_stream with
    | Return opened issued => Return (mk_file_logger_backend opened, cerr) issued
    | Throw (ios_failure what) =>
        mret (mk_file_logger_backend _file_stream,
              cerr +:+ "Error opening log file: " +:+ what +:+ endl)
    | Throw e => Throw e
    end
  else mret (mk_file_logger_backend _file_stream, cerr).

(** [file_logger_backend::log]. *)
Definition file_logger_backend_log (F : file_logger_backend)
    (log_info : logging_info) : file_logger_backend :=
  if is_open (_file_stream F) then
    mk_file_logger_backend
      (mk_ofstream true
         (written (_file_stream F)
          +:+ to_simple_string (time log_info) +:+ ","
          +:+ "0x" +:+ put_thread_id (thread_id log_info) +:+ ","
          +:+ path_to_filename (file log_info) +:+ ":"
          +:+ put_uint (line log_info) +:+ ","
          +:+ put_severity (verbosity log_info) +:+ ","
          +:+ component log_info +:+ ","
          +:+ message log_info
          +:+ endl))
  else F.

(** *** Global resources for the logger *)

Definition UHD_CONSOLE_LOGGER_KEY : string := "console".
Definition UHD_FILE_LOGGER_KEY : string := "file".

(** A registered [log_fn_t]: the address of [console_log], the closure
    over the file backend, or a callable supplied through [add_logger]. *)
Inductive log_fn_t : Set :=
| fn_console_log
| fn_file_logger
| fn_user (id : nat).

#[global] Instance log_fn_t_eq_dec : EqDecision log_fn_t.
Proof. solve_decision. Defined.

(** One invocation [logger.second(log_info)] of the sink stored under
    [call_key]. *)
Record sink_call : Type := mk_sink_call {
  call_key : string;
  call_fn : log_fn_t;
  call_info : logging_info
}.

Record log_resource : Type := mk_log_resource {
  global_level : severity_level;
  logger_level : gmap string severity_level;
  _exit : bool;
  _loggers : gmap string log_fn_t;
  _log_queue : bounded_buffer logging_info
}.

(** Iteration over a [std::map<std::string, T>]: ascending keys. *)
Definition key_le {T} (a b : string * T) : Prop := String.le a.1 b.1.

#[global] Instance key_le_dec {T} (a b : string * T) : Decision (key_le a b).
Proof. unfold key_le. apply _. Defined.

Definition map_items {T} (m : gmap string T) : list (string * T) :=
  merge_sort key_le (map_to_list m).

Definition set_log_queue (rs : log_resource)
    (q : bounded_buffer logging_info) : log_resource :=
  mk_log_resource (global_level rs) (logger_level rs) (_exit rs) (_loggers rs) q.

(** [_get_log_level]: a leading digit selects the numeric reading, the
    chain of [if_loglevel_equal] the names.  The [return previous_level]
    behind the error statement is written as in the source; the statement
    does not let control reach it. *)
Definition _get_log_level (log_level_str : string)
    (previous_level : severity_level) : result severity_level :=
  if isdigit (string_front log_level_str) then
    n ← stoi log_level_str;
    match severity_of_ord n with
    | Some log_level_num =>
        if severity_geb log_level_num trace && severity_geb fatal log_level_num
        then mret log_level_num
        else
          UHD_LOGGER_ERROR "LOG" ("Failed to set log level to: " +:+ log_level_str);;
          mret previous_level
    | None =>
        (* a number beyond the enumerators compares above [fatal] *)
        UHD_LOGGER_ERROR "LOG" ("Failed to set log level to: " +:+ log_level_str);;
        mret previous_level
    end
  else if bool_decide (log_level_str = "trace") then mret trace
  else if bool_decide (log_level_str = "debug") then mret debug
  else if bool_decide (log_level_str = "info") then mret info
  else if bool_decide (log_level_str = "warning") then mret warning
  else if bool_decide (log_level_str = "error") then mret error
  else if bool_decide (log_level_str = "fatal") then mret fatal
  else if bool_decide (log_level_str = "off") then mret off
  else mret previous_level.

(** Constructor of [log_resource].  [getenv] is the process environment
    and [fs] the file system seen by the file backend; the result carries
    the resource, the file backend captured by the file sink (if one was
    made) and [std::cerr]. *)
Definition log_resource_ctor (macros : build_macros)
    (getenv : string → option string) (fs : string → option string)
    (cerr : string)
    : result (log_resource * option file_logger_backend * string) :=
  let global_level := off in
  let _exit := false in
  let _log_queue := mk_bounded_buffer 10 [] in
  let logger_level : gmap string severity_level := ∅ in
  let _loggers : gmap string log_fn_t := ∅ in
  (* allow override from macro definition *)
  global_level ←
    match UHD_LOG_MIN_LEVEL macros with
    | Some d => _get_log_level (BOOST_STRINGIZE "UHD_LOG_MIN_LEVEL" (Some d)) global_level
    | None => mret global_level
    end;
  (* allow override from environment variables *)
  global_level ←
    match getenv "UHD_LOG_LEVEL" with
    | Some log_level_env =>
        if bool_decide (log_level_env ≠ "")
        then _get_log_level log_level_env global_level
        else mret global_level
    | None => mret global_level
    end;
  (* console logging *)
  '(logger_level, _loggers) ←
    (if UHD_LOG_CONSOLE_DISABLE macros then mret (logger_level, _loggers)
     else
       let console_level := trace in
       console_level ←
         match UHD_LOG_CONSOLE_LEVEL macros with
         | Some d =>
             _get_log_level (BOOST_STRINGIZE "UHD_LOG_CONSOLE_LEVEL" (Some d)) console_level
         | None => mret console_level
         end;
       console_level ←
         match getenv "UHD_LOG_CONSOLE_LEVEL" with
         | Some log_console_level_env =>
             if bool_decide (log_console_level_env ≠ "")
             then _get_log_level log_console_level_env console_level
             else mret console_level
         | None => mret console_level
         end;
       mret (<[UHD_CONSOLE_LOGGER_KEY := console_level]> logger_level,
             <[UHD_CONSOLE_LOGGER_KEY := fn_console_log]> _loggers));
  (* file logging *)
  let file_level := trace in
  let log_file_target := "" in
  '(file_level, log_file_target) ←
    match UHD_LOG_FILE_LEVEL macros, UHD_LOG_FILE_PATH macros with
    | Some d, true =>
        file_level ← _get_log_level (BOOST_STRINGIZE "UHD_LOG_FILE_LEVEL" (Some d)) file_level;
        mret (file_level, BOOST_STRINGIZE "UHD_LOG_FILE" (UHD_LOG_FILE macros))
    | _, _ => mret (file_level, log_file_target)
    end;
  file_level ←
    match getenv "UHD_LOG_FILE_LEVEL" with
    | Some log_file_level_env =>
        if bool_decide (log_file_level_env ≠ "")
        then _get_log_level log_file_level_env file_level
        else mret file_level
    | None => mret file_level
    end;
  let log_file_target :=
    match getenv "UHD_LOG_FILE" with
    | Some log_file_env =>
        if bool_decide (log_file_env ≠ "") then log_file_env else log_file_target
    | None => log_file_target
    end in
  if bool_decide (log_file_target ≠ "") then
    '(F, cerr) ← file_logger_backend_ctor fs log_file_target cerr;
    mret (mk_log_resource global_level
            (<[UHD_FILE_LOGGER_KEY := file_level]> logger_level) _exit
            (<[UHD_FILE_LOGGER_KEY := fn_file_logger]> _loggers) _log_queue,
          Some F, cerr)
  else
    mret (mk_log_resource global_level logger_level _exit _loggers _log_queue,
          None, cerr).

(** [~log_resource]: raise the exit flag (the task is then awaited). *)
Definition log_resource_dtor (rs : log_resource) : log_resource :=
  mk_log_resource (global_level rs) (logger_level rs) true (_loggers rs)
    (_log_queue rs).

Definition push (policy : overflow_policy) (rs : log_resource)
    (log_info : logging_info) : log_resource :=
  set_log_queue rs (push_with_haste policy log_info (_log_queue rs)).1.

(** The [for] loop over [_loggers] inside [while (!_exit)]. *)
Definition dispatch_running (rs : log_resource) (log_info : logging_info)
    : list sink_call :=
  flat_map
    (λ logger : string * log_fn_t,
       let level := logger_level rs !! logger.1 in
       match level with
       | Some second =>
           if severity_ltb (verbosity log_info) second
           then []                                   (* continue *)
           else [mk_sink_call logger.1 logger.2 log_info]
       | None => [mk_sink_call logger.1 logger.2 log_info]
       end)
    (map_items (_loggers rs)).

(** The [for] loop over [_loggers] inside the exit procedure. *)
Definition dispatch_exit (rs : log_resource) (log_info : logging_info)
    : list sink_call :=
  flat_map
    (λ logger : string * log_fn_t,
       let level := logger_level rs !! logger.1 in
       match level with
       | Some second =>
           if severity_ltb (verbosity log_info) second
           then []                                   (* continue *)
           else [mk_sink_call logger.1 logger.2 log_info]
       | None => [mk_sink_call logger.1 logger.2 log_info]
       end)
    (map_items (_loggers rs)).

(** Where the consumer stands in [pop_task]: at the head of
    [while (!_exit)], in the exit procedure, or returned. *)
Inductive pop_task_pc : Set := pc_running | pc_exit_procedure | pc_returned.

#[global] Instance pop_task_pc_eq_dec : EqDecision pop_task_pc.
Proof. solve_decision. Defined.

(** One turn of [pop_task]: a test of the exit flag followed by one timed
    pop, or one hasty pop of the exit procedure.  The third component is
    the sinks invoked during the turn, in order. *)
Definition pop_task_step (rs : log_resource) (pc : pop_task_pc)
    : log_resource * pop_task_pc * list sink_call :=
  match pc with
  | pc_running =>
      if _exit rs then (rs, pc_exit_procedure, [])
      else
        match pop_with_timed_wait (_log_queue rs) with
        | (Some log_info, q) =>
            (set_log_queue rs q, pc_running, dispatch_running rs log_info)
        | (None, _) => (rs, pc_running, [])
        end
  | pc_exit_procedure =>
      (* Exit procedure: Clear the queue *)
      match pop_with_haste (_log_queue rs) with
      | (Some log_info, q) =>
          (set_log_queue rs q, pc_exit_procedure, dispatch_exit rs log_info)
      | (None, _) => (rs, pc_returned, [])
      end
  | pc_returned => (rs, pc_returned, [])
  end.

(** [n] consecutive turns of the consumer with no other thread acting. *)
Fixpoint pop_task_run (n : nat) (rs : log_resource) (pc : pop_task_pc)
    : log_resource * pop_task_pc * list sink_call :=
  match n with
  | O => (rs, pc, [])
  | S m =>
      let '(rs1, pc1, calls1) := pop_task_step rs pc in
      let '(rs2, pc2, calls2) := pop_task_run m rs1 pc1 in
      (rs2, pc2, calls1 ++ calls2)
  end.

Definition add_logger (rs : log_resource) (key : string)
    (logger_fn : log_fn_t) : log_resource :=
  mk_log_resource (global_level rs) (logger_level rs) (_exit rs)
    (<[key := logger_fn]> (_loggers rs)) (_log_queue rs).

Definition set_log_level (rs : log_resource) (level : severity_level)
    : log_resource :=
  mk_log_resource level (logger_level rs) (_exit rs) (_loggers rs)
    (_log_queue rs).

Definition set_logger_level (rs : log_resource) (key : string)
    (level : severity_level) : log_resource :=
  mk_log_resource (global_level rs) (<[key := level]> (logger_level rs))
    (_exit rs) (_loggers rs) (_log_queue rs).

Definition set_console_level (rs : log_resource) (level : severity_level)
    : log_resource :=
  set_logger_level rs UHD_CONSOLE_LOGGER_KEY level.

Definition set_file_level (rs : log_resource) (level : severity_level)
    : log_resource :=
  set_logger_level rs UHD_FILE_LOGGER_KEY level.

(** *** The logger object *)

Record log : Type := mk_log {
  _log_info : logging_info;
  _ss : string;
  _log_it : bool
}.

(** [uhd::_log::log::log].  [now] is [microsec_clock::local_time()] and
    [blank] the default-constructed [logging_info] member. *)
Definition log_ctor (rs : log_resource) (blank : logging_info) (now : ptime)
    (verbosity : severity_level) (file : string) (line : N)
    (component : string) (thread_id : thread_id_t) : log :=
  let _log_it := severity_geb verbosity (global_level rs) in
  if _log_it
  then mk_log (mk_logging_info now verbosity file line component thread_id "")
         "" _log_it
  else mk_log blank "" _log_it.

(** Modelled from the spec: the streaming operator of the log statement is
    declared in [uhd/utils/log.hpp], outside [log.cpp].  The spec lets
    message fragments accumulate when the cached check is true and
    discards them otherwise. *)
Definition log_put (l : log) (fragment : string) : log :=
  if _log_it l then mk_log (_log_info l) (_ss l +:+ fragment) (_log_it l)
  else l.

(** [uhd::_log::log::~log], acting on the resource as it is then. *)
Definition log_dtor (policy : overflow_policy) (l : log) (rs : log_resource)
    : log_resource :=
  if _log_it l then push policy rs (set_message (_log_info l) (_ss l))
  else rs.

(** *** The consumer among the other threads *)

(** What one thread does to the resource between two turns of another:
    a turn of the consumer, a producer's [push], a configuration call, or
    the destructor raising the exit flag. *)
Inductive action : Type :=
| act_consumer
| act_push (log_info : logging_info)
| act_add_logger (key : string) (logger_fn : log_fn_t)
| act_set_log_level (level : severity_level)
| act_set_logger_level (key : string) (level : severity_level)
| act_shutdown.

Definition perform (policy : overflow_policy) (a : action)
    (rs : log_resource) (pc : pop_task_pc)
    : log_resource * pop_task_pc * list sink_call :=
  match a with
  | act_consumer => pop_task_step rs pc
  | act_push log_info => (push policy rs log_info, pc, [])
  | act_add_logger key logger_fn => (add_logger rs key logger_fn, pc, [])
  | act_set_log_level level => (set_log_level rs level, pc, [])
  | act_set_logger_level key level => (set_logger_level rs key level, pc, [])
  | act_shutdown => (log_resource_dtor rs, pc, [])
  end.

(** An interleaving of the threads, as the list of their actions. *)
Fixpoint run_schedule (policy : overflow_policy) (schedule : list action)
    (rs : log_resource) (pc : pop_task_pc)
    : log_resource * pop_task_pc * list sink_call :=
  match schedule with
  | [] => (rs, pc, [])
  | a :: rest =>
      let '(rs1, pc1, calls1) := perform policy a rs pc in
      let '(rs2, pc2, calls2) := run_schedule policy rest rs1 pc1 in
      (rs2, pc2, calls1 ++ calls2)
  end.

(** *** Notions used to state the properties *)

(** The sink filter of the consumer: an entry in [logger_level] above the
    record's severity skips the sink. *)
Definition sink_passes (rs : log_resource) (key : string)
    (log_info : logging_info) : Prop :=
  match logger_level rs !! key with
  | Some threshold => severity_ord threshold <= severity_ord (verbosity log_info)
  | None => True
  end.

(** A level text on which [_get_log_level] comes back: one that does not
    start with a digit, or whose leading digits are the ordinal of a level
    from [trace] to [fatal]. *)
Definition level_text_safe (text : string) : bool :=
  negb (isdigit (string_front text)) || (parse_digits text 0 <=? 5).

Definition level_option_safe (text : option string) : bool :=
  from_option level_text_safe true text.

(** A sequence of [add_logger] calls, oldest first. *)
Definition add_loggers (rs : log_resource)
    (registrations : list (string * log_fn_t)) : log_resource :=
  foldl (λ r registration, add_logger r registration.1 registration.2)
    rs registrations.

(** The sink most recently registered under [key] in such a sequence. *)
Fixpoint last_registered (key : string)
    (registrations : list (string * log_fn_t)) : option log_fn_t :=
  match registrations with
  | [] => None
  | (k, fn) :: rest =>
      match last_registered key rest with
      | Some later => Some later
      | None => if bool_decide (k = key) then Some fn else None
      end
  end.

(** Number of line feeds in a text. *)
Fixpoint count_newlines (s : string) : nat :=
  match s with
  | EmptyString => O
  | String c rest =>
      ((if bool_decide (c = "010"%char) then 1 else 0) + count_newlines rest)%nat
  end.

(** The optional leading fields of a console line with their toggles. *)
Definition console_optional_fields (macros : build_macros)
    (log_info : logging_info) : list (bool * string) :=
  [ (UHD_LOG_CONSOLE_COLOR macros, verbosity_color (verbosity log_info));
    (UHD_LOG_CONSOLE_TIME macros,
     "[" +:+ to_simple_string (time log_info) +:+ "] ");
    (UHD_LOG_CONSOLE_THREAD macros,
     "[0x" +:+ put_thread_id (thread_id log_info) +:+ "] ");
    (UHD_LOG_CONSOLE_SRC macros,
     "[" +:+ path_to_filename (file log_info) +:+ ":"
     +:+ put_uint (line log_info) +:+ "] ") ].

Definition enabled_fields (fields : list (bool * string)) : string :=
  String.concat "" (snd <$> filter (λ field, fst field = true) fields).

(** The console line as the specification words it: the enabled optional
    fields, severity and component, the message, and the colour reset
    closing the line.  [reset_always] chooses between a reset on every line
    and a reset only when colour is on. *)
Definition console_line_spec (reset_always : bool) (macros : build_macros)
    (log_info : logging_info) : string :=
  enabled_fields (console_optional_fields macros log_info)
  +:+ "[" +:+ put_severity (verbosity log_info) +:+ "] "
  +:+ "[" +:+ component log_info +:+ "] "
  +:+ message log_info
  +:+ (if reset_always || UHD_LOG_CONSOLE_COLOR macros then RESET_COLORS else "")
  +:+ endl.

(** *** Notions used to state further properties *)

(** The characters [path_to_filename] cuts at. *)
Definition separators : list ascii := ["/"%char; "\"%char].

(** No character of [s] is one of [chars]. *)
Fixpoint free_of (chars : list ascii) (s : string) : bool :=
  match s with
  | EmptyString => true
  | String c rest => negb (bool_decide (c ∈ chars)) && free_of chars rest
  end.

(** The line of the file sink for one record. *)
Definition file_line (log_info : logging_info) : string :=
  String.concat ","
    [ to_simple_string (time log_info);
      "0x" +:+ put_thread_id (thread_id log_info);
      path_to_filename (file log_info) +:+ ":" +:+ put_uint (line log_info);
      put_severity (verbosity log_info);
      component log_info;
      message log_info ]
  +:+ endl.

(** The line of the console sink for one record. *)
Definition console_line (macros : build_macros) (log_info : logging_info)
    : string :=
  console_log macros log_info "".

(** The lower-case name under which [_get_log_level] knows a level. *)
Definition level_name (level : severity_level) : string :=
  match level with
  | trace => "trace" | debug => "debug" | info => "info"
  | warning => "warning" | error => "error" | fatal => "fatal" | off => "off"
  end.

(** The target of the file sink as the constructor settles it: the
    compiled-in one unless [UHD_LOG_FILE] holds a non-empty text. *)
Definition configured_log_file (macros : build_macros)
    (getenv : string → option string) : string :=
  let compiled :=
    match UHD_LOG_FILE_LEVEL macros, UHD_LOG_FILE_PATH macros with
    | Some _, true => BOOST_STRINGIZE "UHD_LOG_FILE" (UHD_LOG_FILE macros)
    | _, _ => ""
    end in
  match getenv "UHD_LOG_FILE" with
  | Some log_file_env =>
      if bool_decide (log_file_env ≠ "") then log_file_env else compiled
  | None => compiled
  end.

(** None of the texts a sink renders from a record holds a line feed. *)
Definition fields_on_one_line (log_info : logging_info) : Prop :=
  Forall (λ text, count_newlines text = 0%nat)
    [ to_simple_string (time log_info);
      put_thread_id (thread_id log_info);
      path_to_filename (file log_info);
      put_severity (verbosity log_info);
      component log_info;
      message log_info ].

(** What the built-in sinks have produced, and the calls received by the
    callables supplied through [add_logger], whose own effects lie outside
    [log.cpp]. *)
Record sinks_state : Type := mk_sinks_state {
  on_clog : string;
  file_backend : option file_logger_backend;
  user_calls : list (nat * logging_info)
}.

(** Carrying out one call [logger.second(log_info)]: [console_log], the
    closure [F->log(log_info)] over the file backend, or a callable of the
    user. *)
Definition invoke (macros : build_macros) (c : sink_call)
    (w : sinks_state) : sinks_state :=
  match call_fn c with
  | fn_console_log =>
      mk_sinks_state (console_log macros (call_info c) (on_clog w))
        (file_backend w) (user_calls w)
  | fn_file_logger =>
      mk_sinks_state (on_clog w)
        ((λ F, file_logger_backend_log F (call_info c)) <$> file_backend w)
        (user_calls w)
  | fn_user id =>
      mk_sinks_state (on_clog w) (file_backend w)
        (user_calls w ++ [(id, call_info c)])
  end.

(** Carrying out the calls of a trace in order. *)
Definition deliver (macros : build_macros) (calls : list sink_call)
    (w : sinks_state) : sinks_state :=
  foldl (λ state c, invoke macros c state) w calls.

End Logger.

(** ** Sample data *)

Definition sample_to_simple_string (t : Z) : string := "2016-Nov-02 10:00:00".
Definition sample_put_thread_id (t : N) : string := "7f3a".
Definition sample_put_severity (l : severity_level) : string :=
  match l with
  | trace => "TRACE" | debug => "DEBUG" | info => "INFO"
  | warning => "WARNING" | error => "ERROR" | fatal => "FATAL" | off => "OFF"
  end.

Definition sample_info : @logging_info Z N :=
  mk_logging_info 0 warning "/src/uhd/host/lib/usrp/x300.cpp" 42%N "X300" 1%N "link up".
Definition sample_error : @logging_info Z N :=
  mk_logging_info 5 error "b200.cpp" 7%N "B200" 2%N "x".
Definition sample_blank : @logging_info Z N :=
  mk_logging_info 0 off "" 0%N "" 0%N "".

Definition plain_macros : build_macros :=
  mk_build_macros false false false false None false None None false None.
Definition color_macros : build_macros :=
  mk_build_macros true false false false None false None None false None.

Definition verbose_macros : build_macros :=
  mk_build_macros true true true true None false None None false None.

Definition empty_env (name : string) : option string := None.
Definition sample_env (name : string) : option string :=
  if bool_decide (name = "UHD_LOG_LEVEL") then Some "info"
  else if bool_decide (name = "UHD_LOG_CONSOLE_LEVEL") then Some "3"
  else if bool_decide (name = "UHD_LOG_FILE") then Some "/tmp/uhd.log"
  else None.
Definition writable_fs (path : string) : option string := None.
Definition readonly_fs (path : string) : option string :=
  Some "basic_ios::clear".

Definition sample_resource : @log_resource Z N :=
  mk_log_resource trace
    (<["file" := error]> (<["console" := info]> ∅)) false
    (<["udp" := fn_user 3]> (<["file" := fn_file_logger]>
       (<["console" := fn_console_log]> ∅)))
    (mk_bounded_buffer 10 [sample_info; sample_error]).

Definition sample_idle : @log_resource Z N :=
  set_log_queue sample_resource (mk_bounded_buffer 10 []).

Definition sample_open_backend : file_logger_backend :=
  mk_file_logger_backend (mk_ofstream true "").

(** A record whose message runs over two lines. *)
Definition sample_two_lines : @logging_info Z N :=
  mk_logging_info 0 info "log.cpp" 12%N "LOG" 1%N ("a" +:+ endl +:+ "b").

(** The resource constructed under [sample_env] with a writable, and with
    a read-only, file system. *)
Definition sample_constructed : @log_resource Z N :=
  match log_resource_ctor plain_macros sample_env writable_fs "" with
  | Return (rs, _, _) _ => rs
  | Throw _ => sample_resource
  end.

Definition sample_degraded : @log_resource Z N :=
  match log_resource_ctor plain_macros sample_env readonly_fs "" with
  | Return (rs, _, _) _ => rs
  | Throw _ => sample_resource
  end.

(** ** Properties *)

Section Properties.

Context {ptime thread_id_t : Type}.
Context (to_simple_string : ptime → string).
Context (put_thread_id : thread_id_t → string).
Context (put_severity : severity_level → string).

Local Abbreviation logging_info := (@logging_info ptime thread_id_t).
Local Abbreviation log_resource := (@log_resource ptime thread_id_t).
Local Abbreviation sink_call := (@sink_call ptime thread_id_t).
Local Abbreviation log := (@log ptime thread_id_t).

Implicit Types (rs : log_resource) (log_info : logging_info).
Implicit Types (c : sink_call) (key : string) (fn : log_fn_t).

(** *** Iteration over the maps *)

Lemma elem_of_map_items {T} (m : gmap string T) (k : string) (v : T) :
  (k, v) ∈ map_items m ↔ m !! k = Some v.
Proof.
  unfold map_items. rewrite merge_sort_Permutation.
  apply elem_of_map_to_list.
Qed.

Lemma NoDup_map_items_keys {T} (m : gmap string T) : NoDup (map_items m).*1.
Proof.
  unfold map_items. rewrite merge_sort_Permutation.
  apply NoDup_fst_map_to_list.
Qed.

(** *** Dispatch of one record *)

Lemma dispatch_exit_eq rs log_info :
  dispatch_exit rs log_info = dispatch_running rs log_info.
Proof. reflexivity. Qed.

Lemma dispatch_running_set_log_queue rs q log_info :
  dispatch_running (set_log_queue rs q) log_info = dispatch_running rs log_info.
Proof. reflexivity. Qed.

Lemma elem_of_dispatch_running rs log_info c :
  c ∈ dispatch_running rs log_info ↔
  ∃ key fn, c = mk_sink_call key fn log_info
            ∧ _loggers rs !! key = Some fn
            ∧ sink_passes rs key log_info.
Proof.
  unfold dispatch_running, sink_passes.
  rewrite list_elem_of_In, in_flat_map. split.
  - intros [[key fn] [Hin Hc]]. apply list_elem_of_In, elem_of_map_items in Hin.
    exists key, fn. simpl in Hc.
    destruct (logger_level rs !! key) as [second|] eqn:Hlevel.
    + unfold severity_ltb in Hc.
      destruct (Z.ltb_spec (severity_ord (verbosity log_info)) (severity_ord second)).
      * destruct Hc.
      * destruct Hc as [<-|[]]. repeat split; [done|lia].
    + destruct Hc as [<-|[]]. done.
  - intros (key & fn & -> & Hfn & Hpass).
    exists (key, fn). split.
    + by apply list_elem_of_In, elem_of_map_items.
    + simpl. destruct (logger_level rs !! key) as [second|].
      * unfold severity_ltb.
        destruct (Z.ltb_spec (severity_ord (verbosity log_info)) (severity_ord second)).
        -- lia.
        -- by left.
      * by left.
Qed.

Lemma sink_call_inj key1 key2 fn1 fn2 (i1 i2 : logging_info) :
  mk_sink_call key1 fn1 i1 = mk_sink_call key2 fn2 i2 →
  key1 = key2 ∧ fn1 = fn2 ∧ i1 = i2.
Proof. by intros [= -> -> ->]. Qed.

Lemma dispatch_running_registered rs log_info key fn :
  _loggers rs !! key = Some fn →
  mk_sink_call key fn log_info ∈ dispatch_running rs log_info
  ↔ sink_passes rs key log_info.
Proof.
  intros Hfn. rewrite elem_of_dispatch_running. split.
  - intros (key' & fn' & Heq & _ & Hpass).
    apply sink_call_inj in Heq as (-> & _ & _). exact Hpass.
  - intros Hpass. by exists key, fn.
Qed.

(** The keys invoked for one record are met in the order of the map,
    each at most once. *)
Lemma dispatch_keys_sublist (levels : gmap string severity_level) log_info
    (loggers : list (string * log_fn_t)) :
  sublist
    (call_key <$> flat_map
       (λ logger : string * log_fn_t,
          match levels !! logger.1 with
          | Some second =>
              if severity_ltb (verbosity log_info) second then []
              else [mk_sink_call logger.1 logger.2 log_info]
          | None => [mk_sink_call logger.1 logger.2 log_info]
          end) loggers)
    loggers.*1.
Proof.
  induction loggers as [|[key fn] rest IH]; simpl; [constructor|].
  rewrite fmap_app.
  destruct (levels !! key) as [second|]; simpl.
  - destruct (severity_ltb (verbosity log_info) second); simpl.
    + by apply sublist_cons.
    + by apply sublist_skip.
  - by apply sublist_skip.
Qed.

Lemma dispatch_running_NoDup_keys rs log_info :
  NoDup (call_key <$> dispatch_running rs log_info).
Proof.
  apply (sublist_NoDup _ (map_items (_loggers rs)).*1).
  - apply NoDup_map_items_keys.
  - apply dispatch_keys_sublist.
Qed.

(** *** The consumer task *)

Lemma pop_task_run_returned n rs :
  pop_task_run n rs pc_returned = (rs, pc_returned, []).
Proof. induction n as [|n IH]; simpl; [done|]. by rewrite IH. Qed.

Lemma pop_task_run_exit_procedure (q : list logging_info) :
  ∀ glevel levels ex loggers cap,
    let rs := mk_log_resource glevel levels ex loggers (mk_bounded_buffer cap q) in
    pop_task_run (S (length q)) rs pc_exit_procedure
    = (mk_log_resource glevel levels ex loggers (mk_bounded_buffer cap []),
       pc_returned,
       flat_map (dispatch_running rs) q).
Proof.
  induction q as [|log_info q IH]; intros glevel levels ex loggers cap rs.
  - reflexivity.
  - change (pop_task_run (S (length (log_info :: q))) rs pc_exit_procedure)
      with (let '(rs2, pc2, calls2) :=
              pop_task_run (S (length q))
                (mk_log_resource glevel levels ex loggers (mk_bounded_buffer cap q))
                pc_exit_procedure in
            (rs2, pc2, dispatch_exit rs log_info ++ calls2)).
    rewrite IH. reflexivity.
Qed.

Lemma pop_task_run_add n m rs pc :
  pop_task_run (n + m) rs pc
  = let '(rs1, pc1, calls1) := pop_task_run n rs pc in
    let '(rs2, pc2, calls2) := pop_task_run m rs1 pc1 in
    (rs2, pc2, calls1 ++ calls2).
Proof.
  revert rs pc. induction n as [|n IH]; intros rs pc; simpl.
  - by destruct (pop_task_run m rs pc) as [[rs2 pc2] calls2].
  - destruct (pop_task_step rs pc) as [[rs1 pc1] calls1].
    rewrite IH.
    destruct (pop_task_run n rs1 pc1) as [[rs2 pc2] calls2].
    destruct (pop_task_run m rs2 pc2) as [[rs3 pc3] calls3].
    by rewrite app_assoc.
Qed.

(** C1: a record taken from the queue by the consumer is handed to a
    registered sink exactly when its severity is at least the threshold
    stored for the sink's key; a sink whose key has no threshold entry
    receives every such record. *)
Theorem pop_task_delivers_iff_passes rs pc log_info key fn :
  pc ≠ pc_returned →
  (pc = pc_running → _exit rs = false) →
  head (elems (_log_queue rs)) = Some log_info →
  _loggers rs !! key = Some fn →
  mk_sink_call key fn log_info ∈ (pop_task_step rs pc).2
  ↔ match logger_level rs !! key with
    | Some threshold =>
        severity_ord threshold <= severity_ord (verbosity log_info)
    | None => True
    end.
Proof.
  intros Hpc Hexit Hhead Hfn.
  destruct pc; [| |done]; simpl.
  - rewrite Hexit by done. unfold pop_with_timed_wait.
    destruct (elems (_log_queue rs)) as [|front rest]; [done|].
    injection Hhead as ->. simpl.
    by apply dispatch_running_registered.
  - unfold pop_with_haste.
    destruct (elems (_log_queue rs)) as [|front rest]; [done|].
    injection Hhead as ->. simpl. rewrite dispatch_exit_eq.
    by apply dispatch_running_registered.
Qed.

(** C5: once the exit flag is raised the consumer leaves its loop, pops
    every record still queued, hands each to the sinks it passes with the
    filter of normal operation, in queue order, and only then returns with
    the queue empty. *)
Theorem exit_procedure_drains_queue rs pc :
  _exit rs = true →
  pc ≠ pc_returned →
  let pending := elems (_log_queue rs) in
  let outcome := pop_task_run (length pending + 2) rs pc in
  outcome.1.2 = pc_returned
  ∧ elems (_log_queue outcome.1.1) = []
  ∧ outcome.2 = flat_map (dispatch_running rs) pending
  ∧ ∀ log_info key fn,
      log_info ∈ pending →
      _loggers rs !! key = Some fn →
      sink_passes rs key log_info →
      mk_sink_call key fn log_info ∈ outcome.2.
Proof.
  intros Hexit Hpc pending outcome.
  assert (outcome
          = (set_log_queue rs (mk_bounded_buffer (capacity (_log_queue rs)) []),
             pc_returned, flat_map (dispatch_running rs) pending)) as ->.
  { subst outcome pending.
    destruct rs as [glevel levels ex loggers [cap q]]. simpl in *. subst ex.
    destruct pc; [| |done].
    - replace (length q + 2)%nat with (1 + S (length q))%nat by lia.
      rewrite pop_task_run_add.
      change (pop_task_run 1 ?r pc_running) with (r, pc_exit_procedure, @nil sink_call).
      cbv beta iota. by rewrite pop_task_run_exit_procedure.
    - replace (length q + 2)%nat with (S (length q) + 1)%nat by lia.
      rewrite pop_task_run_add, pop_task_run_exit_procedure.
      cbv beta iota. rewrite pop_task_run_returned. by rewrite app_nil_r. }
  simpl. repeat split.
  intros log_info key fn Hin Hfn Hpass.
  rewrite list_elem_of_In, in_flat_map. exists log_info. split.
  - by apply list_elem_of_In.
  - apply list_elem_of_In. by apply dispatch_running_registered.
Qed.

(** *** The consumer among the other threads *)

Lemma run_schedule_cons policy a schedule rs pc :
  run_schedule policy (a :: schedule) rs pc
  = let '(rs1, pc1, calls1) := perform policy a rs pc in
    let '(rs2, pc2, calls2) := run_schedule policy schedule rs1 pc1 in
    (rs2, pc2, calls1 ++ calls2).
Proof. reflexivity. Qed.

Lemma run_schedule_app policy (before after : list action) :
  ∀ rs pc,
    run_schedule policy (before ++ after) rs pc
    = let '(rs1, pc1, calls1) := run_schedule policy before rs pc in
      let '(rs2, pc2, calls2) := run_schedule policy after rs1 pc1 in
      (rs2, pc2, calls1 ++ calls2).
Proof.
  induction before as [|a before IH]; intros rs pc.
  - simpl. by destruct (run_schedule policy after rs pc) as [[rs2 pc2] calls2].
  - rewrite <- app_comm_cons, !run_schedule_cons.
    destruct (perform policy a rs pc) as [[rs1 pc1] calls1].
    rewrite IH.
    destruct (run_schedule policy before rs1 pc1) as [[rs2 pc2] calls2].
    destruct (run_schedule policy after rs2 pc2) as [[rs3 pc3] calls3].
    by rewrite app_assoc.
Qed.

(** A turn of the consumer that finds a record at the head of the queue,
    outside the test that leaves the loop, pops and dispatches it. *)
Lemma pop_task_step_pops rs pc log_info :
  pc ≠ pc_returned →
  (pc = pc_running → _exit rs = false) →
  head (elems (_log_queue rs)) = Some log_info →
  pop_task_step rs pc
  = (set_log_queue rs
       (mk_bounded_buffer (capacity (_log_queue rs))
          (tail (elems (_log_queue rs)))),
     pc, dispatch_running rs log_info).
Proof.
  intros Hpc Hexit Hhead. destruct pc; [| |done]; simpl.
  - rewrite Hexit by done. unfold pop_with_timed_wait.
    destruct (elems (_log_queue rs)) as [|front rest]; [done|].
    by injection Hhead as ->.
  - unfold pop_with_haste.
    destruct (elems (_log_queue rs)) as [|front rest]; [done|].
    by injection Hhead as ->.
Qed.

(** The actions of the other threads keep the consumer where it is and,
    when a full queue turns the newcomer away, keep what is queued. *)
Lemma perform_other_keeps_queued a rs pc log_info :
  a ≠ act_consumer →
  log_info ∈ elems (_log_queue rs) →
  (perform drop_newest a rs pc).1.2 = pc
  ∧ (perform drop_newest a rs pc).2 = []
  ∧ log_info ∈ elems (_log_queue (perform drop_newest a rs pc).1.1).
Proof.
  intros Ha Hin. destruct a; try done; simpl.
  split_and!; [done..|].
  unfold push_with_haste.
  destruct (length (elems (_log_queue rs)) <? capacity (_log_queue rs))%nat;
    simpl; [|done].
  apply elem_of_app. by left.
Qed.

(** Whatever the producers and the configuration calls do in between, a
    record in the queue is still there, or has been popped and dispatched
    by the consumer under the sinks and thresholds of that moment, when
    [pop_task] returns. *)
Lemma queued_record_dispatched_before_return (schedule : list action) :
  ∀ rs pc log_info,
    log_info ∈ elems (_log_queue rs) →
    pc ≠ pc_returned →
    (run_schedule drop_newest schedule rs pc).1.2 = pc_returned →
    ∃ before after rs1 pc1 calls1 later,
      schedule = before ++ act_consumer :: after
      ∧ run_schedule drop_newest before rs pc = (rs1, pc1, calls1)
      ∧ head (elems (_log_queue rs1)) = Some log_info
      ∧ pop_task_step rs1 pc1
        = (set_log_queue rs1
             (mk_bounded_buffer (capacity (_log_queue rs1))
                (tail (elems (_log_queue rs1)))),
           pc1, dispatch_running rs1 log_info)
      ∧ (run_schedule drop_newest schedule rs pc).2
        = calls1 ++ dispatch_running rs1 log_info ++ later.
Proof.
  induction schedule as [|a schedule IH]; intros rs pc log_info Hin Hpc Hret.
  - done.
  - assert (∀ rs1 pc1 calls1,
              perform drop_newest a rs pc = (rs1, pc1, calls1) →
              log_info ∈ elems (_log_queue rs1) →
              pc1 ≠ pc_returned →
              ∃ before after rs2 pc2 calls2 later,
                a :: schedule = before ++ act_consumer :: after
                ∧ run_schedule drop_newest before rs pc = (rs2, pc2, calls2)
                ∧ head (elems (_log_queue rs2)) = Some log_info
                ∧ pop_task_step rs2 pc2
                  = (set_log_queue rs2
                       (mk_bounded_buffer (capacity (_log_queue rs2))
                          (tail (elems (_log_queue rs2)))),
                     pc2, dispatch_running rs2 log_info)
                ∧ (run_schedule drop_newest (a :: schedule) rs pc).2
                  = calls2 ++ dispatch_running rs2 log_info ++ later) as Hlater.
    { intros rs1 pc1 calls1 Hperform Hin1 Hpc1.
      rewrite run_schedule_cons, Hperform in Hret.
      destruct (run_schedule drop_newest schedule rs1 pc1)
        as [[rs3 pc3] calls3] eqn:Hrest.
      destruct (IH rs1 pc1 log_info Hin1 Hpc1)
        as (before & after & rs2 & pc2 & calls2 & later
            & -> & Hbefore & Hhead & Hstep & Htrace).
      { by rewrite Hrest. }
      exists (a :: before), after, rs2, pc2, (calls1 ++ calls2), later.
      split_and!; [done| |done|done|].
      - by rewrite run_schedule_cons, Hperform, Hbefore.
      - rewrite run_schedule_cons, Hperform, Hrest. simpl.
        rewrite Hrest in Htrace. simpl in Htrace. rewrite Htrace.
        by rewrite app_assoc. }
    assert (a = act_consumer ∨ a ≠ act_consumer) as [->|Hother]
      by (destruct a; (by left) || (by right)).
    + destruct (elems (_log_queue rs)) as [|front rest] eqn:Hqueue;
        [by apply elem_of_nil in Hin|].
      destruct (decide (pc = pc_running ∧ _exit rs = true)) as [[-> Hexit]|Hpops].
      * apply (Hlater rs pc_exit_procedure []); try done.
        -- simpl. by rewrite Hexit.
        -- by rewrite Hqueue.
      * assert (pop_task_step rs pc
                = (set_log_queue rs
                     (mk_bounded_buffer (capacity (_log_queue rs))
                        (tail (elems (_log_queue rs)))),
                   pc, dispatch_running rs front)) as Hstep.
        { apply pop_task_step_pops; [done| |by rewrite Hqueue].
          intros ->. destruct (_exit rs); [|done]. by destruct Hpops. }
        apply elem_of_cons in Hin as [->|Hin].
        -- exists [], schedule, rs, pc, [].
           destruct (run_schedule drop_newest schedule
                       (set_log_queue rs
                          (mk_bounded_buffer (capacity (_log_queue rs))
                             (tail (elems (_log_queue rs))))) pc)
             as [[rs3 pc3] calls3] eqn:Hrest.
           exists calls3. split_and!; [done|done|by rewrite Hqueue|done|].
           rewrite run_schedule_cons. simpl perform. by rewrite Hstep, Hrest.
        -- apply (Hlater _ _ _ Hstep); [|done].
           simpl. by rewrite Hqueue.
    + destruct (perform_other_keeps_queued a rs pc log_info Hother Hin)
        as (Hpc1 & Hcalls & Hin1).
      destruct (perform drop_newest a rs pc) as [[rs1 pc1] calls1] eqn:Hperform.
      simpl in *. subst. by apply (Hlater rs1 pc []).
Qed.

(** *** Registration and configuration *)

Lemma add_loggers_cons rs key fn registrations :
  add_loggers rs ((key, fn) :: registrations)
  = add_loggers (add_logger rs key fn) registrations.
Proof. reflexivity. Qed.

Lemma add_loggers_lookup registrations :
  ∀ rs key,
    _loggers (add_loggers rs registrations) !! key
    = match last_registered key registrations with
      | Some fn => Some fn
      | None => _loggers rs !! key
      end.
Proof.
  induction registrations as [|[k fn] rest IH]; intros rs key; [done|].
  rewrite add_loggers_cons, IH. simpl.
  destruct (last_registered key rest) as [later|]; [done|].
  rewrite lookup_insert. destruct (decide (k = key)) as [->|Hne].
  - by rewrite bool_decide_eq_true_2.
  - by rewrite bool_decide_eq_false_2.
Qed.

(** C8: registering under a key that is already bound replaces the sink;
    after any sequence of registrations a key is bound to the sink
    registered last under it, and one record invokes at most one sink per
    key. *)
Theorem add_logger_replaces rs key fn1 fn2 registrations log_info :
  add_logger (add_logger rs key fn1) key fn2 = add_logger rs key fn2
  ∧ _loggers (add_logger (add_logger rs key fn1) key fn2) !! key = Some fn2
  ∧ (∀ k, _loggers (add_loggers rs registrations) !! k
          = match last_registered k registrations with
            | Some fn => Some fn
            | None => _loggers rs !! k
            end)
  ∧ NoDup (call_key <$>
             dispatch_running (add_loggers rs registrations) log_info)
  ∧ NoDup (call_key <$>
             dispatch_exit (add_loggers rs registrations) log_info).
Proof.
  split_and!.
  - unfold add_logger. simpl. by rewrite insert_insert_eq.
  - simpl. apply lookup_insert_eq.
  - intros k. apply add_loggers_lookup.
  - apply dispatch_running_NoDup_keys.
  - rewrite dispatch_exit_eq. apply dispatch_running_NoDup_keys.
Qed.

(** C10: [set_logger_level] writes the threshold of its key and leaves the
    global threshold, the thresholds of other keys and the registered
    sinks as they were; [add_logger] writes the sink of its key and leaves
    the other sinks, the global threshold and every per-sink threshold as
    they were. *)
Theorem configuration_frame rs key level fn :
  (logger_level (set_logger_level rs key level) !! key = Some level
   ∧ (∀ k, k ≠ key →
        logger_level (set_logger_level rs key level) !! k = logger_level rs !! k)
   ∧ global_level (set_logger_level rs key level) = global_level rs
   ∧ _loggers (set_logger_level rs key level) = _loggers rs
   ∧ _exit (set_logger_level rs key level) = _exit rs
   ∧ _log_queue (set_logger_level rs key level) = _log_queue rs)
  ∧ (_loggers (add_logger rs key fn) !! key = Some fn
     ∧ (∀ k, k ≠ key →
          _loggers (add_logger rs key fn) !! k = _loggers rs !! k)
     ∧ global_level (add_logger rs key fn) = global_level rs
     ∧ logger_level (add_logger rs key fn) = logger_level rs
     ∧ _exit (add_logger rs key fn) = _exit rs
     ∧ _log_queue (add_logger rs key fn) = _log_queue rs)
  ∧ (global_level (set_log_level rs level) = level
     ∧ logger_level (set_log_level rs level) = logger_level rs
     ∧ _loggers (set_log_level rs level) = _loggers rs).
Proof.
  split_and!; try reflexivity; simpl.
  - apply lookup_insert_eq.
  - intros k Hne. by apply lookup_insert_ne.
  - apply lookup_insert_eq.
  - intros k Hne. by apply lookup_insert_ne.
Qed.

(** *** Text *)

Lemma string_app_cons (c : ascii) (s t : string) :
  String c s +:+ t = String c (s +:+ t).
Proof. reflexivity. Qed.

Lemma string_app_nil_l (s : string) : "" +:+ s = s.
Proof. reflexivity. Qed.

Lemma string_app_nil_r (s : string) : s +:+ "" = s.
Proof.
  induction s as [|c s IH]; [done|]. by rewrite string_app_cons, IH.
Qed.

Lemma string_app_assoc (s t u : string) : (s +:+ t) +:+ u = s +:+ (t +:+ u).
Proof.
  induction s as [|c s IH]; [done|]. by rewrite !string_app_cons, IH.
Qed.

Lemma concat_empty_cons (s : string) (l : list string) :
  String.concat "" (s :: l) = s +:+ String.concat "" l.
Proof.
  destruct l as [|t l]; simpl; [by rewrite string_app_nil_r|done].
Qed.

Lemma count_newlines_app (s t : string) :
  count_newlines (s +:+ t) = (count_newlines s + count_newlines t)%nat.
Proof.
  induction s as [|c s IH]; [done|].
  rewrite string_app_cons. simpl. rewrite IH. lia.
Qed.

(** *** The log statement *)

Lemma log_put_discarded (l : log) fragments :
  _log_it l = false → foldl log_put l fragments = l.
Proof.
  intros Hit. induction fragments as [|fragment rest IH]; [done|].
  simpl. unfold log_put at 2. by rewrite Hit.
Qed.

Lemma log_put_accumulates fragments :
  ∀ (l : log),
    _log_it l = true →
    foldl log_put l fragments
    = mk_log (_log_info l) (_ss l +:+ String.concat "" fragments) true.
Proof.
  induction fragments as [|fragment rest IH]; intros l Hit.
  - simpl. rewrite string_app_nil_r. destruct l. simpl in *. by subst.
  - change (foldl log_put l (fragment :: rest))
      with (foldl log_put (log_put l fragment) rest).
    unfold log_put at 2. rewrite Hit. rewrite IH by done.
    rewrite concat_empty_cons. cbn [_log_info _ss].
    by rewrite string_app_assoc.
Qed.

(** C2: the comparison against the global threshold is made when the
    statement is constructed and kept in [_log_it]; accumulating message
    fragments does not change it, and the destructor hands the finished
    record to [push] when the kept result is true and does nothing
    otherwise, whatever the resource has become since. *)
Theorem log_statement_submit_iff policy rs rs' blank now v src_file src_line
    comp tid fragments :
  let made := log_ctor rs blank now v src_file src_line comp tid in
  let done := foldl log_put made fragments in
  let record :=
    mk_logging_info now v src_file src_line comp tid (String.concat "" fragments) in
  _log_it made = bool_decide (severity_ord (global_level rs) <= severity_ord v)
  ∧ _log_it done = _log_it made
  ∧ (_log_it made = true → log_dtor policy done rs' = push policy rs' record)
  ∧ (_log_it made = false → log_dtor policy done rs' = rs')
  ∧ (severity_ord v < severity_ord (global_level rs) →
       log_dtor policy done rs' = rs')
  ∧ (severity_ord (global_level rs) <= severity_ord v →
       (length (elems (_log_queue rs')) < capacity (_log_queue rs'))%nat →
       elems (_log_queue (log_dtor policy done rs'))
       = elems (_log_queue rs') ++ [record]).
Proof.
  intros made done record.
  assert (_log_it made
          = bool_decide (severity_ord (global_level rs) <= severity_ord v)) as Hmade.
  { subst made. unfold log_ctor, severity_geb.
    destruct (Z.leb_spec (severity_ord (global_level rs)) (severity_ord v)).
    - by rewrite bool_decide_eq_true_2.
    - by rewrite bool_decide_eq_false_2 by lia. }
  assert (_log_it made = true →
          done = mk_log (mk_logging_info now v src_file src_line comp tid "")
                   (String.concat "" fragments) true) as Htrue.
  { intros Hit. subst done. rewrite log_put_accumulates by done.
    subst made. unfold log_ctor in *.
    destruct (severity_geb v (global_level rs)); [done|discriminate]. }
  assert (_log_it made = false → done = made) as Hfalse.
  { intros Hit. subst done. by apply log_put_discarded. }
  split_and!.
  - exact Hmade.
  - destruct (_log_it made) eqn:Hit.
    + by rewrite Htrue.
    + by rewrite Hfalse.
  - intros Hit. by rewrite Htrue.
  - intros Hit. rewrite Hfalse by done. unfold log_dtor. by rewrite Hit.
  - intros Hlt. rewrite bool_decide_eq_false_2 in Hmade by lia.
    rewrite Hfalse by done. unfold log_dtor. by rewrite Hmade.
  - intros Hle Hroom. rewrite bool_decide_eq_true_2 in Hmade by lia.
    rewrite Htrue by done. unfold log_dtor, push, push_with_haste. simpl.
    apply Nat.ltb_lt in Hroom. by rewrite Hroom.
Qed.

(** *** Reading a level *)

Lemma parse_digits_nonneg (s : string) :
  ∀ acc, 0 <= acc → 0 <= parse_digits s acc.
Proof.
  induction s as [|c rest IH]; intros acc Hacc; simpl; [done|].
  destruct (isdigit c) eqn:Hc; [|done].
  apply IH. unfold isdigit in Hc. lia.
Qed.

Lemma stoi_digit_front (s : string) :
  isdigit (string_front s) = true →
  stoi s = if parse_digits s 0 <=? INT_MAX
           then Return (parse_digits s 0) []
           else Throw std_out_of_range.
Proof.
  destruct s as [|c rest]; [discriminate|]. cbn [string_front]. intros Hc.
  assert (0 <= parse_digits (String c rest) 0) as Hnonneg
    by (by apply parse_digits_nonneg).
  unfold stoi.
  assert (isspace c = false) as Hspace.
  { unfold isdigit, isspace in *. lia. }
  assert (c ≠ "-"%char ∧ c ≠ "+"%char) as [Hminus Hplus].
  { split; intros ->; discriminate Hc. }
  cbn [skip_spaces]. rewrite Hspace.
  replace (match String c rest with
           | String "-"%char rest0 => (true, rest0)
           | String "+"%char rest0 => (false, rest0)
           | _ => (false, String c rest)
           end) with (false, String c rest).
  - cbn [starts_with_digit]. rewrite Hc.
    replace (INT_MIN <=? parse_digits (String c rest) 0) with true; [reflexivity|].
    symmetry. apply Z.leb_le. unfold INT_MIN. lia.
  - destruct c as [[] [] [] [] [] [] [] []]; try reflexivity; congruence.
Qed.

Lemma _get_log_level_safe (s : string) (previous_level : severity_level) :
  level_text_safe s = true →
  ∃ level issued, _get_log_level s previous_level = Return level issued.
Proof.
  unfold level_text_safe, _get_log_level. intros Hsafe.
  destruct (isdigit (string_front s)) eqn:Hdigit.
  - rewrite stoi_digit_front by done. simpl in Hsafe.
    apply Z.leb_le in Hsafe.
    pose proof (parse_digits_nonneg s 0 ltac:(done)) as Hnonneg.
    replace (parse_digits s 0 <=? INT_MAX) with true
      by (symmetry; apply Z.leb_le; unfold INT_MAX; lia).
    cbn [mbind result_bind].
    destruct (parse_digits s 0) as [|[[[]|[]|]|[[]|[]|]|]|];
      try lia; cbn; by eauto.
  - repeat case_bool_decide; by eauto.
Qed.

Lemma _get_log_level_option_safe (text : option string)
    (previous_level : severity_level) :
  level_option_safe text = true →
  ∃ level issued,
    match text with
    | Some s =>
        if bool_decide (s ≠ "") then _get_log_level s previous_level
        else mret previous_level
    | None => mret previous_level
    end = Return level issued.
Proof.
  destruct text as [s|]; simpl; [|by eauto].
  intros Hfits. case_bool_decide; [|by eauto].
  by apply _get_log_level_safe.
Qed.

Lemma bind_Return_inv {A B} (m : result A) (f : A → result B) b issued :
  m ≫= f = Return b issued →
  ∃ a issued1 issued2,
    m = Return a issued1 ∧ f a = Return b issued2 ∧ issued = issued1 ++ issued2.
Proof.
  unfold mbind, result_bind. destruct m as [a issued1|e]; [|done].
  destruct (f a) as [b' issued2|e] eqn:Hf; [|done].
  intros [= -> <-]. by exists a, issued1, issued2.
Qed.

(** *** Construction of the resource *)

Lemma log_ctor_off rs blank now v src_file src_line comp tid :
  global_level rs = off → v ≠ off →
  log_ctor rs blank now v src_file src_line comp tid = mk_log blank "" false.
Proof.
  intros Hoff Hv. unfold log_ctor. rewrite Hoff.
  by destruct v.
Qed.

Lemma mret_Return_inv {A} (a b : A) issued :
  mret a = Return b issued → a = b ∧ issued = [].
Proof. by intros [= -> <-]. Qed.

(** What the constructor leaves in the resource apart from the sinks. *)
Lemma log_resource_ctor_global macros getenv fs cerr rs F cerr' issued :
  log_resource_ctor macros getenv fs cerr = Return (rs, F, cerr') issued →
  ∃ from_macro issued1 issued2,
    match UHD_LOG_MIN_LEVEL macros with
    | Some d => _get_log_level (BOOST_STRINGIZE "UHD_LOG_MIN_LEVEL" (Some d)) off
    | None => mret off
    end = Return from_macro issued1
    ∧ match getenv "UHD_LOG_LEVEL" with
      | Some log_level_env =>
          if bool_decide (log_level_env ≠ "")
          then _get_log_level log_level_env from_macro
          else mret from_macro
      | None => mret from_macro
      end = Return (global_level rs) issued2
    ∧ _exit rs = false
    ∧ _log_queue rs = mk_bounded_buffer 10 [].
Proof.
  unfold log_resource_ctor. intros Hctor.
  apply bind_Return_inv in Hctor as (from_macro & issued1 & ? & Hmacro & Hctor & _).
  apply bind_Return_inv in Hctor as (from_env & issued2 & ? & Henv & Hctor & _).
  exists from_macro, issued1, issued2. split; [done|].
  apply bind_Return_inv in Hctor as ([levels loggers] & ? & ? & _ & Hctor & _).
  apply bind_Return_inv in Hctor as ([file_level target] & ? & ? & _ & Hctor & _).
  apply bind_Return_inv in Hctor as (file_level' & ? & ? & _ & Hctor & _).
  case_bool_decide.
  - apply bind_Return_inv in Hctor as ([backend cerr2] & ? & ? & _ & Hctor & _).
    apply mret_Return_inv in Hctor as [[= <- <- <-] _]. done.
  - apply mret_Return_inv in Hctor as [[= <- <- <-] _]. done.
Qed.

Lemma returns_mret {A} (a : A) : returns (mret a).
Proof. by exists a, []. Qed.

Lemma returns_bind {A B} (m : result A) (f : A → result B) :
  returns m → (∀ a, returns (f a)) → returns (m ≫= f).
Proof.
  intros (a & issued1 & ->) Hf. destruct (Hf a) as (b & issued2 & Hb).
  exists b, (issued1 ++ issued2). unfold mbind, result_bind. by rewrite Hb.
Qed.

Lemma returns_get_log_level (text : string) (previous_level : severity_level) :
  level_text_safe text = true → returns (_get_log_level text previous_level).
Proof. apply _get_log_level_safe. Qed.

Lemma returns_file_logger_backend_ctor fs file_path cerr :
  returns (file_logger_backend_ctor fs file_path cerr).
Proof.
  unfold file_logger_backend_ctor, ofstream_open.
  case_bool_decide; [|apply returns_mret].
  destruct (fs file_path); apply returns_mret.
Qed.

(** C9: with no [UHD_LOG_MIN_LEVEL] macro and no non-empty [UHD_LOG_LEVEL]
    variable the constructed resource has global threshold [off] and an
    empty queue, and as long as that threshold stands a log statement of
    any severity from [trace] to [fatal] is discarded: its cached check is
    false and its destructor leaves the resource untouched.  The
    constructor does return whenever none of the console and file level
    texts starts with a digit and reads above the ordinal of [fatal]. *)
Theorem default_global_level_off macros getenv fs cerr :
  UHD_LOG_MIN_LEVEL macros = None →
  (getenv "UHD_LOG_LEVEL" = None ∨ getenv "UHD_LOG_LEVEL" = Some "") →
  (∀ rs F cerr' issued,
     log_resource_ctor macros getenv fs cerr = Return (rs, F, cerr') issued →
     global_level rs = off
     ∧ elems (_log_queue rs) = []
     ∧ ∀ policy (rs_made rs_done : log_resource) blank now v src_file
         src_line comp tid fragments,
         global_level rs_made = global_level rs →
         v ≠ off →
         let done :=
           foldl log_put
             (log_ctor rs_made blank now v src_file src_line comp tid)
             fragments in
         _log_it done = false ∧ log_dtor policy done rs_done = rs_done)
  ∧ (level_option_safe (UHD_LOG_CONSOLE_LEVEL macros) = true →
     level_option_safe (getenv "UHD_LOG_CONSOLE_LEVEL") = true →
     level_option_safe (UHD_LOG_FILE_LEVEL macros) = true →
     level_option_safe (getenv "UHD_LOG_FILE_LEVEL") = true →
     ∃ (rs : log_resource) F cerr' issued,
       log_resource_ctor macros getenv fs cerr = Return (rs, F, cerr') issued).
Proof using Type.
  clear to_simple_string put_thread_id put_severity.
  intros Hmacro Henv.
  split.
  - intros rs F cerr' issued Hctor.
    assert (global_level rs = off ∧ elems (_log_queue rs) = []) as [Hoff Hqueue].
    { apply log_resource_ctor_global in Hctor
        as (from_macro & issued1 & issued2 & Hfirst & Hsecond & _ & ->).
      split; [|done].
      rewrite Hmacro in Hfirst. apply mret_Return_inv in Hfirst as [<- _].
      destruct Henv as [He|He]; rewrite He in Hsecond.
      - by apply mret_Return_inv in Hsecond as [<- _].
      - rewrite bool_decide_eq_false_2 in Hsecond by naive_solver.
        by apply mret_Return_inv in Hsecond as [<- _]. }
    split_and!; [done..|].
    intros policy rs_made rs_done blank now v src_file src_line comp tid
      fragments Hsame Hv.
    rewrite log_ctor_off by congruence. rewrite log_put_discarded by done.
    done.
  - intros Hcm Hce Hfm Hfe.
    cut (returns (@log_resource_ctor ptime thread_id_t macros getenv fs cerr)).
    { intros ([[rs F] cerr'] & issued & Hctor). by exists rs, F, cerr', issued. }
    unfold log_resource_ctor. rewrite Hmacro.
    apply returns_bind; [apply returns_mret|intros ?].
    apply returns_bind.
    { destruct Henv as [-> | ->]; [apply returns_mret|].
      rewrite bool_decide_eq_false_2 by naive_solver. apply returns_mret. }
    intros global_level. apply returns_bind.
    { destruct (UHD_LOG_CONSOLE_DISABLE macros); [apply returns_mret|].
      apply returns_bind.
      - destruct (UHD_LOG_CONSOLE_LEVEL macros) as [d|]; [|apply returns_mret].
        by apply returns_get_log_level.
      - intros console_level. apply returns_bind; [|intros ?; apply returns_mret].
        destruct (getenv "UHD_LOG_CONSOLE_LEVEL") as [text|]; [|apply returns_mret].
        case_bool_decide; [|apply returns_mret].
        by apply returns_get_log_level. }
    intros [levels loggers]. apply returns_bind.
    { destruct (UHD_LOG_FILE_LEVEL macros) as [d|]; [|apply returns_mret].
      destruct (UHD_LOG_FILE_PATH macros); [|apply returns_mret].
      apply returns_bind; [|intros ?; apply returns_mret].
      by apply returns_get_log_level. }
    intros [file_level log_file_target]. apply returns_bind.
    { destruct (getenv "UHD_LOG_FILE_LEVEL") as [text|]; [|apply returns_mret].
      case_bool_decide; [|apply returns_mret].
      by apply returns_get_log_level. }
    intros file_level'. case_bool_decide; [|apply returns_mret].
    apply returns_bind; [apply returns_file_logger_backend_ctor|].
    intros [backend cerr2]. apply returns_mret.
Qed.

(** *** The file sink *)

Lemma file_logger_backend_log_closed (F : file_logger_backend) log_info :
  is_open (_file_stream F) = false →
  file_logger_backend_log to_simple_string put_thread_id put_severity F log_info = F.
Proof. intros Hclosed. unfold file_logger_backend_log. by rewrite Hclosed. Qed.

(** C4: when the target path cannot be opened the constructor still
    returns; it has put one diagnostic line on [std::cerr] and nothing on
    the file stream, the stream is not open, and every later [log] call
    leaves the backend as it is. *)
Theorem file_sink_open_failure fs file_path what cerr
    (records : list logging_info) :
  file_path ≠ "" →
  fs file_path = Some what →
  ∃ F,
    file_logger_backend_ctor fs file_path cerr
    = Return (F, cerr +:+ "Error opening log file: " +:+ what +:+ endl) []
    ∧ is_open (_file_stream F) = false
    ∧ written (_file_stream F) = ""
    ∧ (∀ log_info,
         file_logger_backend_log to_simple_string put_thread_id put_severity
           F log_info = F)
    ∧ foldl
        (file_logger_backend_log to_simple_string put_thread_id put_severity)
        F records = F.
Proof.
  intros Hpath Hfs. exists (mk_file_logger_backend (mk_ofstream false "")).
  split_and!; try done.
  - unfold file_logger_backend_ctor, ofstream_open. simpl.
    rewrite bool_decide_eq_true_2 by done. by rewrite Hfs.
  - induction records as [|log_info rest IH]; [done|]. simpl. exact IH.
Qed.

Lemma count_newlines_concat (sep : string) (fields : list string) :
  count_newlines sep = 0%nat →
  (∀ field, field ∈ fields → count_newlines field = 0%nat) →
  count_newlines (String.concat sep fields) = 0%nat.
Proof.
  intros Hsep. induction fields as [|field rest IH]; intros Hfields; [done|].
  simpl. destruct rest as [|next rest].
  - apply Hfields. by left.
  - rewrite !count_newlines_app, Hsep, IH.
    + rewrite Hfields; [done|by left].
    + intros f Hf. apply Hfields. by right.
Qed.

(** C6 (amended): a record written by the file sink appends to the stream
    the six fields time stamp, ["0x"] and thread identifier, file name and
    line joined by a colon, severity, component and message, joined by
    commas in that order and closed by one line feed; when no field holds
    a line feed this is one line. *)
Theorem file_line_format (F : file_logger_backend) log_info :
  is_open (_file_stream F) = true →
  let F' :=
    file_logger_backend_log to_simple_string put_thread_id put_severity
      F log_info in
  let fields :=
    [ to_simple_string (time log_info);
      "0x" +:+ put_thread_id (thread_id log_info);
      path_to_filename (file log_info) +:+ ":" +:+ put_uint (line log_info);
      put_severity (verbosity log_info);
      component log_info;
      message log_info ] in
  written (_file_stream F')
  = written (_file_stream F) +:+ String.concat "," fields +:+ endl
  ∧ is_open (_file_stream F') = true
  ∧ ((∀ field, field ∈ fields → count_newlines field = 0%nat) →
     count_newlines (String.concat "," fields +:+ endl) = 1%nat).
Proof.
  intros Hopen F' fields. split_and!.
  - subst F' fields. unfold file_logger_backend_log. rewrite Hopen.
    cbn [_file_stream written String.concat].
    by rewrite !string_app_assoc.
  - subst F'. unfold file_logger_backend_log. by rewrite Hopen.
  - intros Hfields. rewrite count_newlines_app.
    by rewrite count_newlines_concat.
Qed.

(** *** The console sink *)

(** C7 (amended): the console line is the enabled optional fields in the
    order colour, time stamp, thread, file and line, then the bracketed
    severity and component, then the colour reset when colour is on, then
    the message and a line feed; a field whose toggle is off contributes
    nothing. *)
Theorem console_line_format macros log_info clog :
  console_log to_simple_string put_thread_id put_severity macros log_info clog
  = clog
    +:+ enabled_fields
          (console_optional_fields to_simple_string put_thread_id macros log_info)
    +:+ "[" +:+ put_severity (verbosity log_info) +:+ "] "
    +:+ "[" +:+ component log_info +:+ "] "
    +:+ (if UHD_LOG_CONSOLE_COLOR macros then RESET_COLORS else "")
    +:+ message log_info
    +:+ endl.
Proof.
  unfold console_log, enabled_fields, console_optional_fields.
  destruct (UHD_LOG_CONSOLE_COLOR macros), (UHD_LOG_CONSOLE_TIME macros),
    (UHD_LOG_CONSOLE_THREAD macros), (UHD_LOG_CONSOLE_SRC macros);
    cbn [filter list_filter fmap list_fmap snd fst String.concat];
    simpl; rewrite ?string_app_assoc, ?string_app_nil_r; reflexivity.
Qed.

(** *** Level texts *)

Lemma _get_log_level_names (previous_level : severity_level) :
  _get_log_level "trace" previous_level = Return trace []
  ∧ _get_log_level "debug" previous_level = Return debug []
  ∧ _get_log_level "info" previous_level = Return info []
  ∧ _get_log_level "warning" previous_level = Return warning []
  ∧ _get_log_level "error" previous_level = Return error []
  ∧ _get_log_level "fatal" previous_level = Return fatal []
  ∧ _get_log_level "off" previous_level = Return off [].
Proof. split_and!; reflexivity. Qed.

Lemma _get_log_level_ordinals (previous_level : severity_level) :
  _get_log_level "0" previous_level = Return trace []
  ∧ _get_log_level "1" previous_level = Return debug []
  ∧ _get_log_level "2" previous_level = Return info []
  ∧ _get_log_level "3" previous_level = Return warning []
  ∧ _get_log_level "4" previous_level = Return error []
  ∧ _get_log_level "5" previous_level = Return fatal [].
Proof. split_and!; reflexivity. Qed.

(** A text that neither starts with a digit nor spells an enumerator keeps
    the previous level and issues no statement. *)
Lemma _get_log_level_unknown_name (text : string)
    (previous_level : severity_level) :
  isdigit (string_front text) = false →
  text ∉ ["trace"; "debug"; "info"; "warning"; "error"; "fatal"; "off"] →
  _get_log_level text previous_level = Return previous_level [].
Proof.
  clear to_simple_string put_thread_id put_severity.
  intros Hdigit Hname. unfold _get_log_level. rewrite Hdigit.
  repeat (case_bool_decide; [subst; exfalso; apply Hname; set_solver|]).
  reflexivity.
Qed.

(** An ordinal above [fatal] that fits an [int] runs into the error
    statement, which does not come back. *)
Lemma _get_log_level_ordinal_too_large (text : string)
    (previous_level : severity_level) :
  isdigit (string_front text) = true →
  5 < parse_digits text 0 <= INT_MAX →
  _get_log_level text previous_level = Throw recursive_init_error.
Proof.
  intros Hdigit [Hlow Hhigh]. unfold _get_log_level.
  rewrite Hdigit, stoi_digit_front by done.
  apply Z.leb_le in Hhigh. rewrite Hhigh. cbn [mbind result_bind].
  destruct (severity_of_ord (parse_digits text 0)) as [level|] eqn:Hlevel;
    [|reflexivity].
  assert (level = off) as ->.
  { unfold severity_of_ord in Hlevel.
    destruct (parse_digits text 0) as [|[[[]|[]|]|[[]|[]|]|]|]; try discriminate; try lia.
    by injection Hlevel as <-. }
  reflexivity.
Qed.

(** A digit string beyond [INT_MAX] makes [_get_log_level] throw. *)
Lemma _get_log_level_throws (text : string) (previous_level : severity_level) :
  isdigit (string_front text) = true →
  INT_MAX < parse_digits text 0 →
  _get_log_level text previous_level = Throw std_out_of_range.
Proof.
  intros Hdigit Hbig. unfold _get_log_level.
  rewrite Hdigit, stoi_digit_front by done.
  apply Z.leb_gt in Hbig. by rewrite Hbig.
Qed.

(** C3: what [_get_log_level] does on three texts that name no level: an
    unknown name keeps the previous level without a word, an ordinal
    beyond [fatal] reaches the error statement, which enters [log_rs()]
    again during construction and does not come back, and a digit string
    too long for an [int] lets [std::out_of_range] escape. *)
Theorem get_log_level_invalid_text :
  _get_log_level "bogus" info = Return info []
  ∧ _get_log_level "7" info = Throw recursive_init_error
  ∧ _get_log_level "99999999999" info = Throw std_out_of_range.
Proof. split_and!; reflexivity. Qed.

(** *** File names *)

Lemma substr_app_length (dir s : string) :
  substr (dir +:+ s) (String.length dir) = s.
Proof. induction dir as [|c dir IH]; [by destruct s|]. exact IH. Qed.

Lemma string_length_app (s t : string) :
  String.length (s +:+ t) = (String.length s + String.length t)%nat.
Proof.
  induction s as [|c s IH]; [done|].
  rewrite string_app_cons. simpl. by rewrite IH.
Qed.

Lemma find_last_of_from_free (chars : list ascii) (s : string) :
  ∀ i, free_of chars s = true → find_last_of_from chars s i = npos.
Proof.
  induction s as [|c rest IH]; intros i Hfree; [done|].
  simpl in *. apply andb_true_iff in Hfree as [Hc Hrest].
  rewrite IH by done. rewrite Z.eqb_refl.
  by destruct (bool_decide (c ∈ chars)).
Qed.

Lemma find_last_of_from_last (chars : list ascii) (c : ascii)
    (dir rest : string) :
  ∀ i,
    0 <= i →
    i + Z.of_nat (String.length dir) < npos →
    c ∈ chars →
    free_of chars rest = true →
    find_last_of_from chars (dir +:+ String c rest) i
    = i + Z.of_nat (String.length dir).
Proof.
  induction dir as [|a dir IH]; intros i Hi Hbound Hc Hfree.
  - change ("" +:+ String c rest) with (String c rest).
    cbn [find_last_of_from String.length].
    rewrite find_last_of_from_free by done. rewrite Z.eqb_refl.
    rewrite bool_decide_eq_true_2 by done. lia.
  - rewrite string_app_cons. cbn [find_last_of_from].
    cbn [String.length] in *.
    rewrite IH by (done || lia).
    destruct (Z.eqb_spec (i + 1 + Z.of_nat (String.length dir)) npos); lia.
Qed.

Lemma separator_split (chars : list ascii) (s : string) :
  free_of chars s = true
  ∨ ∃ dir (c : ascii) rest,
      s = dir +:+ String c rest ∧ c ∈ chars ∧ free_of chars rest = true.
Proof.
  induction s as [|a s IH]; [by left|].
  destruct IH as [Hfree|(dir & c & rest & -> & Hc & Hrest)].
  - destruct (decide (a ∈ chars)) as [Ha|Ha].
    + right. by exists "", a, s.
    + left. simpl. by rewrite bool_decide_eq_false_2, Hfree.
  - right. by exists (String a dir), c, rest.
Qed.

Lemma path_to_filename_free (path : string) :
  free_of separators path = true → path_to_filename path = path.
Proof.
  intros Hfree. unfold path_to_filename, find_last_of.
  fold separators. rewrite find_last_of_from_free by done.
  by destruct path.
Qed.

Lemma path_to_filename_cut (dir rest : string) (c : ascii) :
  Z.of_nat (String.length dir) < npos →
  c ∈ separators →
  free_of separators rest = true →
  path_to_filename (dir +:+ String c rest) = rest.
Proof.
  intros Hbound Hc Hfree. unfold path_to_filename, find_last_of.
  fold separators. rewrite find_last_of_from_last by (done || lia).
  rewrite Z.mod_small by (unfold npos in *; lia).
  replace (Z.to_nat (0 + Z.of_nat (String.length dir) + 1))
    with (String.length (dir +:+ String c "")).
  - replace (dir +:+ String c rest) with ((dir +:+ String c "") +:+ rest)
      by (by rewrite string_app_assoc).
    apply substr_app_length.
  - rewrite string_length_app. simpl. lia.
Qed.

(** X1: the file name is the part of the path after its last separator:
    the path is a directory part followed by the file name, the file name
    holds no separator, and the directory part is empty or ends with
    one. *)
Theorem path_to_filename_last_component (path : string) :
  Z.of_nat (String.length path) < npos →
  ∃ dir,
    path = dir +:+ path_to_filename path
    ∧ free_of separators (path_to_filename path) = true
    ∧ (dir = ""
       ∨ ∃ parent (c : ascii), dir = parent +:+ String c "" ∧ c ∈ separators).
Proof.
  intros Hbound.
  destruct (separator_split separators path)
    as [Hfree|(dir & c & rest & -> & Hc & Hrest)].
  - exists "". rewrite path_to_filename_free by done. by split_and!; [| |left].
  - rewrite string_length_app in Hbound.
    rewrite path_to_filename_cut by (done || lia).
    exists (dir +:+ String c ""). split_and!.
    + by rewrite string_app_assoc.
    + done.
    + right. by exists dir, c.
Qed.

(** X2: a name without separators put behind any directory and a separator
    comes back unchanged, and a path without separators is its own file
    name. *)
Theorem path_to_filename_join (dir name : string) (c : ascii) :
  Z.of_nat (String.length dir) < npos →
  c ∈ separators →
  free_of separators name = true →
  path_to_filename (dir +:+ String c name) = name
  ∧ path_to_filename name = name.
Proof.
  intros Hbound Hc Hfree. split.
  - by apply path_to_filename_cut.
  - by apply path_to_filename_free.
Qed.

(** *** Colours *)

(** X3: no two severities share a colour code. *)
Theorem verbosity_color_inj (a b : severity_level) :
  verbosity_color a = verbosity_color b → a = b.
Proof. destruct a, b; intros Hcolor; try reflexivity; discriminate Hcolor. Qed.

(** *** More on level texts *)

(** X4: [_get_log_level] fails to come back exactly on a text that
    starts with a digit and whose leading digits read above the ordinal of
    [fatal]: [std::out_of_range] escapes from [std::stoi] when they exceed
    [INT_MAX], and otherwise the error statement enters [log_rs()] again
    during construction. *)
Theorem _get_log_level_throws_iff (text : string)
    (previous_level : severity_level) (e : exn) :
  _get_log_level text previous_level = Throw e
  ↔ isdigit (string_front text) = true
    ∧ ((INT_MAX < parse_digits text 0 ∧ e = std_out_of_range)
       ∨ (5 < parse_digits text 0 <= INT_MAX ∧ e = recursive_init_error)).
Proof.
  split.
  - intros Hthrow.
    destruct (isdigit (string_front text)) eqn:Hdigit.
    + split; [done|].
      destruct (Z.leb_spec (parse_digits text 0) INT_MAX) as [Hfits|Hbig].
      * destruct (Z.leb_spec (parse_digits text 0) 5) as [Hsafe|Hlarge].
        -- destruct (_get_log_level_safe text previous_level)
             as (level & issued & Hreturn); [|congruence].
           unfold level_text_safe. rewrite Hdigit. by apply Z.leb_le.
        -- right. split; [done|].
           rewrite _get_log_level_ordinal_too_large in Hthrow by done.
           by injection Hthrow.
      * left. split; [done|].
        rewrite _get_log_level_throws in Hthrow by done.
        by injection Hthrow.
    + destruct (_get_log_level_safe text previous_level)
        as (level & issued & Hreturn); [|congruence].
      unfold level_text_safe. by rewrite Hdigit.
  - intros (Hdigit & [[Hbig ->]|[Hlarge ->]]).
    + by apply _get_log_level_throws.
    + by apply _get_log_level_ordinal_too_large.
Qed.

(** X5: when [_get_log_level] comes back it has completed no statement,
    and the level it gives is decided as follows: for a text that starts
    with a digit, the level from [trace] to [fatal] whose ordinal the
    leading digits read; for a text that spells a level in lower case,
    that level; for any other text, the previous level. *)
Theorem _get_log_level_returned_level (text : string)
    (previous_level level : severity_level) (issued : list log_statement) :
  _get_log_level text previous_level = Return level issued →
  issued = []
  ∧ (isdigit (string_front text) = true →
     severity_ord level = parse_digits text 0 ∧ level ≠ off)
  ∧ (isdigit (string_front text) = false →
     text = level_name level
     ∨ (level = previous_level ∧ ∀ named, text ≠ level_name named)).
Proof.
  clear to_simple_string put_thread_id put_severity.
  unfold _get_log_level.
  destruct (isdigit (string_front text)) eqn:Hdigit.
  - rewrite stoi_digit_front by done.
    destruct (Z.leb_spec (parse_digits text 0) INT_MAX) as [Hfits|Hbig];
      [|discriminate].
    cbn [mbind result_bind].
    pose proof (parse_digits_nonneg text 0 ltac:(done)) as Hnonneg.
    destruct (parse_digits text 0) as [|[[[]|[]|]|[[]|[]|]|]|];
      try lia; cbn; try discriminate;
      intros [= <- <-]; by split_and!.
  - repeat case_bool_decide; intros [= <- <-];
      (split_and!; [done|done|intros _]);
      try (left; by subst).
    right. split; [done|]. intros named ->. by destruct named.
Qed.

Lemma parse_digits_stops (tail : string) (acc : Z) :
  starts_with_digit tail = false → parse_digits tail acc = acc.
Proof. destruct tail as [|c tail]; simpl; [done|]. by intros ->. Qed.

(** X6: the numeric reading looks at the leading digits only: the ordinal
    of a level from [trace] to [fatal], followed by anything that does not
    start with a digit, sets that level whatever the previous one was. *)
Theorem _get_log_level_ordinal_prefix (level previous_level : severity_level)
    (tail : string) :
  level ≠ off →
  starts_with_digit tail = false →
  _get_log_level (put_uint (Z.to_N (severity_ord level)) +:+ tail)
    previous_level
  = Return level [].
Proof.
  intros Hlevel Htail. unfold _get_log_level.
  destruct level; try done;
    (rewrite stoi_digit_front by done;
     cbn [put_uint severity_ord Z.to_N]; simpl;
     rewrite parse_digits_stops by done; reflexivity).
Qed.

(** *** Line feeds *)

Lemma count_newlines_put_uint (n : N) : count_newlines (put_uint n) = 0%nat.
Proof.
  unfold put_uint. generalize (N.to_uint n). intros d.
  assert (count_newlines (NilEmpty.string_of_uint d) = 0%nat) as Hd
    by (induction d; simpl; done).
  by destruct d.
Qed.

Lemma count_newlines_verbosity_color (level : severity_level) :
  count_newlines (verbosity_color level) = 0%nat.
Proof. by destruct level. Qed.

Lemma count_newlines_concat_lines {A} (line_of : A → string) (l : list A) :
  (∀ x, x ∈ l → count_newlines (line_of x) = 1%nat) →
  count_newlines (String.concat "" (line_of <$> l)) = length l.
Proof.
  induction l as [|x l IH]; intros Hl; [done|].
  rewrite fmap_cons, concat_empty_cons, count_newlines_app.
  rewrite Hl by (by left). rewrite IH; [done|].
  intros y Hy. apply Hl. by right.
Qed.

Lemma count_newlines_file_line log_info :
  fields_on_one_line to_simple_string put_thread_id put_severity log_info →
  count_newlines
    (file_line to_simple_string put_thread_id put_severity log_info) = 1%nat.
Proof.
  unfold fields_on_one_line, file_line. rewrite !Forall_cons.
  intros (Ht & Hid & Hf & Hs & Hc & Hm & _).
  cbn [String.concat]. rewrite !count_newlines_app.
  rewrite Ht, Hid, Hf, Hs, Hc, Hm, count_newlines_put_uint. reflexivity.
Qed.

Lemma count_newlines_console_line macros log_info :
  fields_on_one_line to_simple_string put_thread_id put_severity log_info →
  count_newlines
    (console_line to_simple_string put_thread_id put_severity macros log_info)
  = 1%nat.
Proof.
  unfold fields_on_one_line, console_line, console_log. rewrite !Forall_cons.
  intros (Ht & Hid & Hf & Hs & Hc & Hm & _).
  destruct (UHD_LOG_CONSOLE_COLOR macros), (UHD_LOG_CONSOLE_TIME macros),
    (UHD_LOG_CONSOLE_THREAD macros), (UHD_LOG_CONSOLE_SRC macros);
    rewrite !count_newlines_app;
    rewrite ?Ht, ?Hid, ?Hf, ?Hs, ?Hc, ?Hm, ?count_newlines_put_uint,
      ?count_newlines_verbosity_color;
    reflexivity.
Qed.

(** *** Sequences of records on the built-in sinks *)

Lemma string_app_same_l (s t : string) : s +:+ t = s → t = "".
Proof.
  intros Heq. apply (f_equal String.length) in Heq.
  rewrite string_length_app in Heq. destruct t; [done|]. simpl in Heq. lia.
Qed.

(** X7: the constructor of the file backend never throws and never
    writes to the file; the stream is open exactly when a non-empty path
    could be opened, and [std::cerr] is touched exactly when a non-empty
    path could not. *)
Theorem file_logger_backend_ctor_outcome (fs : string → option string)
    (file_path cerr : string) :
  ∃ F cerr',
    file_logger_backend_ctor fs file_path cerr = Return (F, cerr') []
    ∧ written (_file_stream F) = ""
    ∧ (is_open (_file_stream F) = true ↔ file_path ≠ "" ∧ fs file_path = None)
    ∧ (cerr' ≠ cerr ↔ file_path ≠ "" ∧ fs file_path ≠ None).
Proof.
  unfold file_logger_backend_ctor, ofstream_open.
  case_bool_decide as Hpath.
  - destruct (fs file_path) as [what|] eqn:Hfs.
    + eexists _, _. split; [reflexivity|]. split_and!; [done| |].
      * split; [done|by intros [_ ?]].
      * split; [done|]. intros _ Heq.
        apply string_app_same_l in Heq. discriminate Heq.
    + eexists _, _. split; [reflexivity|]. split_and!; [done| |].
      * done.
      * split; [done|]. by intros [_ ?].
  - eexists _, _. split; [reflexivity|]. split_and!; [done| |].
    + split; [done|]. by intros [? _].
    + split; [done|]. by intros [? _].
Qed.

Lemma file_logger_backend_log_open (F : file_logger_backend) log_info :
  is_open (_file_stream F) = true →
  file_logger_backend_log to_simple_string put_thread_id put_severity F log_info
  = mk_file_logger_backend
      (mk_ofstream true
         (written (_file_stream F)
          +:+ file_line to_simple_string put_thread_id put_severity log_info)).
Proof.
  intros Hopen. unfold file_logger_backend_log, file_line. rewrite Hopen.
  cbn [String.concat]. by rewrite !string_app_assoc.
Qed.

(** X8: on an open stream a sequence of [log] calls appends the lines of
    the records in the order of the calls, after what was written before,
    and leaves the stream open; when no rendered field holds a line feed
    that is one line per record. *)
Theorem file_logger_backend_log_sequence (records : list logging_info) :
  ∀ F : file_logger_backend,
    is_open (_file_stream F) = true →
    let F' :=
      foldl (file_logger_backend_log to_simple_string put_thread_id put_severity)
        F records in
    written (_file_stream F')
    = written (_file_stream F)
      +:+ String.concat ""
            (file_line to_simple_string put_thread_id put_severity <$> records)
    ∧ is_open (_file_stream F') = true
    ∧ (Forall (fields_on_one_line to_simple_string put_thread_id put_severity)
         records →
       count_newlines
         (String.concat ""
            (file_line to_simple_string put_thread_id put_severity <$> records))
       = length records).
Proof.
  assert (Forall (fields_on_one_line to_simple_string put_thread_id put_severity)
            records →
          count_newlines
            (String.concat ""
               (file_line to_simple_string put_thread_id put_severity
                  <$> records))
          = length records) as Hlines.
  { intros Hclean. apply count_newlines_concat_lines.
    intros log_info Hin. apply count_newlines_file_line.
    by eapply Forall_forall in Hclean. }
  revert Hlines. generalize (length records). intros n Hlines.
  cut (∀ F : file_logger_backend,
         is_open (_file_stream F) = true →
         written
           (_file_stream
              (foldl
                 (file_logger_backend_log to_simple_string put_thread_id
                    put_severity) F records))
         = written (_file_stream F)
           +:+ String.concat ""
                 (file_line to_simple_string put_thread_id put_severity
                    <$> records)
         ∧ is_open
             (_file_stream
                (foldl
                   (file_logger_backend_log to_simple_string put_thread_id
                      put_severity) F records)) = true).
  { intros Hseq F Hopen. destruct (Hseq F Hopen). by split_and!. }
  clear Hlines n.
  induction records as [|log_info rest IH]; intros F Hopen.
  - simpl. by rewrite string_app_nil_r.
  - cbn [foldl]. rewrite file_logger_backend_log_open by done.
    destruct (IH (mk_file_logger_backend
                    (mk_ofstream true
                       (written (_file_stream F)
                        +:+ file_line to_simple_string put_thread_id
                              put_severity log_info)))
                eq_refl) as [Hrest Hopen'].
    split; [|exact Hopen'].
    rewrite Hrest. cbn [_file_stream written].
    by rewrite fmap_cons, concat_empty_cons, string_app_assoc.
Qed.

(** X9: the console sink only appends: a sequence of records leaves on
    [std::clog] what was there, followed by the console line of each record
    in the order of the calls, under every choice of the toggles; when no
    rendered field holds a line feed that is one line per record. *)
Theorem console_log_sequence macros (records : list logging_info) :
  ∀ clog,
    foldl
      (λ out log_info,
         console_log to_simple_string put_thread_id put_severity macros
           log_info out)
      clog records
    = clog
      +:+ String.concat ""
            (console_line to_simple_string put_thread_id put_severity macros
               <$> records)
    ∧ (Forall (fields_on_one_line to_simple_string put_thread_id put_severity)
         records →
       count_newlines
         (String.concat ""
            (console_line to_simple_string put_thread_id put_severity macros
               <$> records))
       = length records).
Proof.
  intros clog. split.
  2:{ intros Hclean. apply count_newlines_concat_lines.
      intros log_info Hin. apply count_newlines_console_line.
      by eapply Forall_forall in Hclean. }
  revert clog.
  induction records as [|log_info rest IH]; intros clog.
  - simpl. by rewrite string_app_nil_r.
  - cbn [foldl]. rewrite IH, fmap_cons, concat_empty_cons.
    rewrite <- string_app_assoc. f_equal.
Qed.

(** *** What the constructor registers *)

Lemma file_logger_backend_ctor_quiet fs file_path cerr F cerr' issued :
  file_logger_backend_ctor fs file_path cerr = Return (F, cerr') issued →
  issued = [].
Proof.
  unfold file_logger_backend_ctor, ofstream_open.
  case_bool_decide; [destruct (fs file_path)|]; by intros [= _ _ <-].
Qed.

Lemma log_resource_ctor_sinks_inv macros getenv fs cerr
    (rs : log_resource) F cerr' issued :
  log_resource_ctor macros getenv fs cerr = Return (rs, F, cerr') issued →
  ∃ (levels : gmap string severity_level) (loggers : gmap string log_fn_t),
    ((UHD_LOG_CONSOLE_DISABLE macros = true ∧ levels = ∅ ∧ loggers = ∅)
     ∨ (UHD_LOG_CONSOLE_DISABLE macros = false
        ∧ (∃ console_level, levels = {[UHD_CONSOLE_LOGGER_KEY := console_level]})
        ∧ loggers = {[UHD_CONSOLE_LOGGER_KEY := fn_console_log]}))
    ∧ ((configured_log_file macros getenv = ""
        ∧ F = None ∧ cerr' = cerr
        ∧ logger_level rs = levels ∧ _loggers rs = loggers)
       ∨ (configured_log_file macros getenv ≠ ""
          ∧ (∃ backend,
               F = Some backend
               ∧ file_logger_backend_ctor fs (configured_log_file macros getenv)
                   cerr = Return (backend, cerr') [])
          ∧ (∃ file_level,
               logger_level rs = <[UHD_FILE_LOGGER_KEY := file_level]> levels)
          ∧ _loggers rs = <[UHD_FILE_LOGGER_KEY := fn_file_logger]> loggers)).
Proof.
  unfold log_resource_ctor. intros Hctor.
  apply bind_Return_inv in Hctor as (from_macro & ? & ? & _ & Hctor & _).
  apply bind_Return_inv in Hctor as (from_env & ? & ? & _ & Hctor & _).
  apply bind_Return_inv in Hctor as ([levels loggers] & ? & ? & Hconsole & Hctor & _).
  exists levels, loggers. split.
  { destruct (UHD_LOG_CONSOLE_DISABLE macros).
    - left. by apply mret_Return_inv in Hconsole as [[= <- <-] _].
    - right. split; [done|].
      apply bind_Return_inv in Hconsole as (l1 & ? & ? & _ & Hconsole & _).
      apply bind_Return_inv in Hconsole as (l2 & ? & ? & _ & Hconsole & _).
      apply mret_Return_inv in Hconsole as [[= <- <-] _]. split; [by exists l2|done]. }
  apply bind_Return_inv in Hctor as ([file_level target] & ? & ? & Hcompiled & Hctor & _).
  apply bind_Return_inv in Hctor as (file_level' & ? & ? & _ & Hctor & _).
  assert (target
          = match UHD_LOG_FILE_LEVEL macros, UHD_LOG_FILE_PATH macros with
            | Some _, true => BOOST_STRINGIZE "UHD_LOG_FILE" (UHD_LOG_FILE macros)
            | _, _ => ""
            end) as Htarget.
  { destruct (UHD_LOG_FILE_LEVEL macros) as [d|];
      [destruct (UHD_LOG_FILE_PATH macros)|].
    - apply bind_Return_inv in Hcompiled as (l1 & ? & ? & _ & Hcompiled & _).
      by apply mret_Return_inv in Hcompiled as [[= _ <-] _].
    - by apply mret_Return_inv in Hcompiled as [[= _ <-] _].
    - by apply mret_Return_inv in Hcompiled as [[= _ <-] _]. }
  assert (match getenv "UHD_LOG_FILE" with
          | Some log_file_env =>
              if bool_decide (log_file_env ≠ "") then log_file_env else target
          | None => target
          end = configured_log_file macros getenv) as Hconfigured.
  { unfold configured_log_file. by rewrite Htarget. }
  rewrite Hconfigured in Hctor. clear Hconfigured Htarget Hcompiled.
  case_bool_decide as Hfile.
  - right. split; [done|].
    apply bind_Return_inv in Hctor as ([backend cerr2] & ? & ? & Hbackend & Hctor & _).
    apply mret_Return_inv in Hctor as [[= <- <- <-] _].
    pose proof (file_logger_backend_ctor_quiet _ _ _ _ _ _ Hbackend) as ->.
    split_and!; [by exists backend|by exists file_level'|done].
  - left. apply mret_Return_inv in Hctor as [[= <- <- <-] _].
    split_and!; first [done | by apply dec_stable].
Qed.

(** X10: a constructed resource holds the console sink exactly when the
    console is not disabled at build time and the file sink exactly when a
    log file is configured; it holds no other sink, every sink it holds has
    a threshold entry and no other key has one, and the file backend is the
    one made for the configured path, which also accounts for
    [std::cerr]. *)
Theorem log_resource_ctor_sinks macros getenv fs cerr
    (rs : log_resource) F cerr' issued :
  log_resource_ctor macros getenv fs cerr = Return (rs, F, cerr') issued →
  _loggers rs !! "console"
  = (if UHD_LOG_CONSOLE_DISABLE macros then None else Some fn_console_log)
  ∧ _loggers rs !! "file"
    = (if bool_decide (configured_log_file macros getenv = "")
       then None else Some fn_file_logger)
  ∧ (∀ key, key ≠ "console" → key ≠ "file" → _loggers rs !! key = None)
  ∧ (∀ key, is_Some (logger_level rs !! key) ↔ is_Some (_loggers rs !! key))
  ∧ (if bool_decide (configured_log_file macros getenv = "")
     then F = None ∧ cerr' = cerr
     else ∃ backend,
            F = Some backend
            ∧ file_logger_backend_ctor fs (configured_log_file macros getenv)
                cerr = Return (backend, cerr') []).
Proof.
  intros Hctor.
  apply log_resource_ctor_sinks_inv in Hctor
    as (levels & loggers & Hconsole & Hfile).
  assert (loggers !! "console"
          = (if UHD_LOG_CONSOLE_DISABLE macros then None else Some fn_console_log)
          ∧ loggers !! "file" = None
          ∧ (∀ key, key ≠ "console" → loggers !! key = None)
          ∧ (∀ key, is_Some (levels !! key) ↔ is_Some (loggers !! key)))
    as (Hc & Hf & Hother & Hdom).
  { destruct Hconsole as [(-> & -> & ->)|(-> & [console_level ->] & ->)].
    - split_and!; try done. intros key. by rewrite !lookup_empty.
    - unfold UHD_CONSOLE_LOGGER_KEY. split_and!; try done.
      + intros key Hkey. by rewrite lookup_singleton_ne.
      + intros key. destruct (decide (key = "console")) as [->|Hkey].
        * rewrite !lookup_singleton_eq. by split; eauto.
        * by rewrite !lookup_singleton_ne. }
  destruct Hfile as [(Hnone & -> & -> & -> & ->)
                    |(Hsome & Hbackend & [file_level ->] & ->)].
  - rewrite bool_decide_eq_true_2 by done. split_and!; try done.
    intros key Hkey _. by apply Hother.
  - rewrite bool_decide_eq_false_2 by done. unfold UHD_FILE_LOGGER_KEY.
    split_and!.
    + by rewrite lookup_insert_ne.
    + by rewrite lookup_insert_eq.
    + intros key Hconsole_key Hfile_key. rewrite lookup_insert_ne by done.
      by apply Hother.
    + intros key. destruct (decide (key = "file")) as [->|Hkey].
      * rewrite !lookup_insert_eq. by split; eauto.
      * by rewrite !lookup_insert_ne.
    + done.
Qed.

Lemma _get_log_level_level_name (level previous_level : severity_level) :
  _get_log_level (level_name level) previous_level = Return level [].
Proof. by destruct level. Qed.

(** X11: the environment wins over the build: when [UHD_LOG_LEVEL] names a
    level, in lower case, or gives the ordinal of one from [trace] to
    [fatal], a constructed resource has that global threshold whatever
    [UHD_LOG_MIN_LEVEL] was compiled in. *)
Theorem log_resource_ctor_env_level macros getenv fs cerr
    (rs : log_resource) F cerr' issued (level : severity_level) :
  getenv "UHD_LOG_LEVEL" = Some (level_name level)
  ∨ (level ≠ off
     ∧ getenv "UHD_LOG_LEVEL" = Some (put_uint (Z.to_N (severity_ord level)))) →
  log_resource_ctor macros getenv fs cerr = Return (rs, F, cerr') issued →
  global_level rs = level.
Proof.
  clear to_simple_string put_thread_id put_severity.
  intros Henv Hctor.
  apply log_resource_ctor_global in Hctor
    as (from_macro & issued1 & issued2 & _ & Hlevel & _).
  destruct Henv as [Henv|[Hoff Henv]]; rewrite Henv in Hlevel.
  - rewrite bool_decide_eq_true_2 in Hlevel by (by destruct level).
    rewrite _get_log_level_level_name in Hlevel. by injection Hlevel.
  - rewrite bool_decide_eq_true_2 in Hlevel by (by destruct level).
    destruct level; try done; by injection Hlevel.
Qed.

(** *** More on the consumer *)

(** X12: a turn of the consumer calls nothing but sinks that are
    registered, under their own key, with the record at the head of the
    queue, and only where the record passes the threshold of the key; a
    consumer that has returned, or that sees the exit flag from its loop,
    calls nothing. *)
Theorem pop_task_step_sound rs pc c :
  c ∈ (pop_task_step rs pc).2 →
  head (elems (_log_queue rs)) = Some (call_info c)
  ∧ _loggers rs !! call_key c = Some (call_fn c)
  ∧ match logger_level rs !! call_key c with
    | Some threshold =>
        severity_ord threshold <= severity_ord (verbosity (call_info c))
    | None => True
    end
  ∧ pc ≠ pc_returned
  ∧ (pc = pc_running → _exit rs = false).
Proof.
  assert (∀ log_info,
            c ∈ dispatch_running rs log_info →
            log_info = call_info c
            ∧ _loggers rs !! call_key c = Some (call_fn c)
            ∧ sink_passes rs (call_key c) (call_info c)) as Hdispatch.
  { intros log_info (key & fn & -> & Hfn & Hpass)%elem_of_dispatch_running.
    done. }
  destruct pc; simpl.
  - destruct (_exit rs); [by intros ?%elem_of_nil|].
    unfold pop_with_timed_wait.
    destruct (elems (_log_queue rs)) as [|front rest];
      [by intros ?%elem_of_nil|].
    simpl. intros (-> & Hfn & Hpass)%Hdispatch. by split_and!.
  - unfold pop_with_haste.
    destruct (elems (_log_queue rs)) as [|front rest];
      [by intros ?%elem_of_nil|].
    simpl. rewrite dispatch_exit_eq.
    intros (-> & Hfn & Hpass)%Hdispatch. by split_and!.
  - by intros ?%elem_of_nil.
Qed.

Lemma StronglySorted_sublist {A} (R : relation A) (k l : list A) :
  sublist k l → StronglySorted R l → StronglySorted R k.
Proof.
  induction 1 as [|x k l Hsub IH|x k l Hsub IH]; intros Hsorted.
  - constructor.
  - apply StronglySorted_inv in Hsorted as [Hl Hx].
    constructor; [by apply IH|].
    eapply Forall_forall. intros y Hy.
    eapply Forall_forall in Hx; [done|]. by eapply elem_of_sublist.
  - apply StronglySorted_inv in Hsorted as [Hl _]. by apply IH.
Qed.

Lemma map_items_keys_sorted {T} (m : gmap string T) :
  StronglySorted String.le (map_items m).*1.
Proof.
  unfold map_items.
  apply (StronglySorted_fmap fst key_le); [done|].
  apply StronglySorted_merge_sort.
  - intros a b d Hab Hbd. unfold key_le in *. by etrans.
  - intros a b. unfold key_le. apply (total String.le).
Qed.

(** X13: the sinks called for one record are called in ascending order
    of their keys, no key twice: the order of the map of sinks, not the
    order of registration. *)
Theorem pop_task_step_key_order rs pc :
  StronglySorted String.le (call_key <$> (pop_task_step rs pc).2)
  ∧ NoDup (call_key <$> (pop_task_step rs pc).2).
Proof.
  assert (∀ log_info,
            StronglySorted String.le (call_key <$> dispatch_running rs log_info)
            ∧ NoDup (call_key <$> dispatch_running rs log_info)) as Hdispatch.
  { intros log_info. split; [|apply dispatch_running_NoDup_keys].
    apply (StronglySorted_sublist _ _ (map_items (_loggers rs)).*1).
    - apply dispatch_keys_sublist.
    - apply map_items_keys_sorted. }
  assert (StronglySorted String.le (call_key <$> @nil sink_call)
          ∧ NoDup (call_key <$> @nil sink_call)) as Hnil
    by (split; constructor).
  destruct pc; simpl; [| |exact Hnil].
  - destruct (_exit rs); [exact Hnil|]. unfold pop_with_timed_wait.
    destruct (elems (_log_queue rs)); [exact Hnil|apply Hdispatch].
  - unfold pop_with_haste.
    destruct (elems (_log_queue rs)); [exact Hnil|].
    simpl. rewrite dispatch_exit_eq. apply Hdispatch.
Qed.

Lemma pop_task_step_resource rs pc :
  (pop_task_step rs pc).1.1 = rs
  ∨ ∃ front rest,
      elems (_log_queue rs) = front :: rest
      ∧ (pop_task_step rs pc).1.1
        = set_log_queue rs (mk_bounded_buffer (capacity (_log_queue rs)) rest).
Proof.
  destruct pc; simpl; [| |by left].
  - destruct (_exit rs); [by left|]. unfold pop_with_timed_wait.
    destruct (elems (_log_queue rs)) as [|front rest]; [by left|].
    right. by exists front, rest.
  - unfold pop_with_haste.
    destruct (elems (_log_queue rs)) as [|front rest]; [by left|].
    right. by exists front, rest.
Qed.

(** X14: the consumer reads the configuration and never writes it: any
    number of its turns leaves the global threshold, the per-sink
    thresholds, the sinks, the exit flag and the capacity of the queue as
    they were, and what is left in the queue is a tail of what was
    there. *)
Theorem pop_task_run_frame (n : nat) :
  ∀ rs pc,
    let rs' := (pop_task_run n rs pc).1.1 in
    global_level rs' = global_level rs
    ∧ logger_level rs' = logger_level rs
    ∧ _loggers rs' = _loggers rs
    ∧ _exit rs' = _exit rs
    ∧ capacity (_log_queue rs') = capacity (_log_queue rs)
    ∧ elems (_log_queue rs') `suffix_of` elems (_log_queue rs).
Proof.
  induction n as [|n IH]; intros rs pc; [split_and!; reflexivity|].
  assert (let rs1 := (pop_task_step rs pc).1.1 in
          global_level rs1 = global_level rs
          ∧ logger_level rs1 = logger_level rs
          ∧ _loggers rs1 = _loggers rs
          ∧ _exit rs1 = _exit rs
          ∧ capacity (_log_queue rs1) = capacity (_log_queue rs)
          ∧ elems (_log_queue rs1) `suffix_of` elems (_log_queue rs)) as Hstep.
  { cbv zeta.
    destruct (pop_task_step_resource rs pc) as [->|(front & rest & Hq & ->)].
    - split_and!; reflexivity.
    - simpl. rewrite Hq. split_and!; try reflexivity.
      by apply suffix_cons_r. }
  simpl. destruct (pop_task_step rs pc) as [[rs1 pc1] calls1].
  specialize (IH rs1 pc1).
  destruct (pop_task_run n rs1 pc1) as [[rs2 pc2] calls2].
  simpl in *.
  destruct IH as (-> & -> & -> & -> & -> & Hsuffix).
  destruct Hstep as (-> & -> & -> & -> & -> & Hsuffix1).
  split_and!; try done. by etrans.
Qed.

(** X15: while the exit flag is down the consumer takes the records in
    the order they were queued, one per turn: [n] turns dispatch the first
    [n] queued records in that order, leave the others queued, and once the
    queue is empty further turns change nothing. *)
Theorem pop_task_run_fifo (n : nat) :
  ∀ rs,
    _exit rs = false →
    pop_task_run n rs pc_running
    = (set_log_queue rs
         (mk_bounded_buffer (capacity (_log_queue rs))
            (drop n (elems (_log_queue rs)))),
       pc_running,
       flat_map (dispatch_running rs) (take n (elems (_log_queue rs)))).
Proof.
  induction n as [|n IH]; intros rs Hexit.
  - simpl. by destruct rs as [? ? ? ? []].
  - cbn [pop_task_run pop_task_step]. rewrite Hexit.
    unfold pop_with_timed_wait.
    destruct rs as [glevel levels ex loggers [cap q]]. simpl in Hexit.
    destruct q as [|front rest]; cbn [elems _log_queue].
    + rewrite IH by done. simpl. by rewrite drop_nil, take_nil.
    + rewrite IH by done. reflexivity.
Qed.

(** *** Thresholds *)

(** X17: a statement whose own severity is [off] is never filtered: its
    cached check is true under every global threshold, [off] included, and
    a record of that severity is handed to every registered sink whatever
    threshold the sink has. *)
Theorem severity_off_is_never_filtered rs blank now src_file src_line comp tid
    log_info key fn :
  _log_it (log_ctor rs blank now off src_file src_line comp tid) = true
  ∧ (verbosity log_info = off →
     _loggers rs !! key = Some fn →
     mk_sink_call key fn log_info ∈ dispatch_running rs log_info
     ∧ mk_sink_call key fn log_info ∈ dispatch_exit rs log_info).
Proof.
  split.
  - unfold log_ctor, severity_geb. by destruct (global_level rs).
  - intros Hoff Hfn.
    change (dispatch_exit rs log_info) with (dispatch_running rs log_info).
    assert (mk_sink_call key fn log_info ∈ dispatch_running rs log_info); [|done].
    apply dispatch_running_registered; [done|].
    unfold sink_passes. rewrite Hoff.
    destruct (logger_level rs !! key) as [[]|]; simpl; lia.
Qed.

Lemma sink_passes_set_logger_level_ne rs key other level log_info :
  other ≠ key →
  sink_passes (set_logger_level rs key level) other log_info
  ↔ sink_passes rs other log_info.
Proof.
  intros Hne. unfold sink_passes, set_logger_level. simpl.
  by rewrite lookup_insert_ne.
Qed.

Lemma elem_of_dispatch_set_logger_level_ne rs key level log_info c :
  call_key c ≠ key →
  c ∈ dispatch_running (set_logger_level rs key level) log_info
  ↔ c ∈ dispatch_running rs log_info.
Proof.
  intros Hne. rewrite !elem_of_dispatch_running.
  split; intros (k & fn & -> & Hfn & Hpass); exists k, fn;
    (split_and!; [done|done|]);
    by apply (sink_passes_set_logger_level_ne rs key k level log_info).
Qed.

Lemma dispatch_silenced rs key level fn log_info :
  severity_ord (verbosity log_info) < severity_ord level →
  mk_sink_call key fn log_info
    ∉ dispatch_running (set_logger_level rs key level) log_info.
Proof.
  intros Hbelow (k & f & Heq & _ & Hpass)%elem_of_dispatch_running.
  apply sink_call_inj in Heq as (<- & _ & _).
  unfold sink_passes, set_logger_level in Hpass. simpl in Hpass.
  rewrite lookup_insert_eq in Hpass. lia.
Qed.

(** X18: [set_console_level] and [set_file_level] act on the keys
    ["console"] and ["file"] alone: what every other sink receives is
    unchanged, and at level [off] the sink under the key receives no record
    of severity [trace] to [fatal]. *)
Theorem builtin_levels_act_on_their_sink rs level log_info c fn :
  (call_key c ≠ "console" →
   c ∈ dispatch_running (set_console_level rs level) log_info
   ↔ c ∈ dispatch_running rs log_info)
  ∧ (call_key c ≠ "file" →
     c ∈ dispatch_running (set_file_level rs level) log_info
     ↔ c ∈ dispatch_running rs log_info)
  ∧ (verbosity log_info ≠ off →
     (mk_sink_call "console" fn log_info
        ∉ dispatch_running (set_console_level rs off) log_info)
     ∧ (mk_sink_call "file" fn log_info
          ∉ dispatch_running (set_file_level rs off) log_info)).
Proof.
  split_and!.
  - apply elem_of_dispatch_set_logger_level_ne.
  - apply elem_of_dispatch_set_logger_level_ne.
  - intros Hv.
    assert (severity_ord (verbosity log_info) < severity_ord off)
      by (destruct (verbosity log_info); simpl; done || lia).
    split; by apply dispatch_silenced.
Qed.

(** X19: lowering the threshold of a sink loses nothing: every sink call
    made for a record under the old threshold is also made under a lower
    one. *)
Theorem lower_threshold_keeps_deliveries rs key old_level new_level log_info c :
  logger_level rs !! key = Some old_level →
  severity_ord new_level <= severity_ord old_level →
  c ∈ dispatch_running rs log_info →
  c ∈ dispatch_running (set_logger_level rs key new_level) log_info.
Proof.
  intros Hold Hlower (k & fn & -> & Hfn & Hpass)%elem_of_dispatch_running.
  apply elem_of_dispatch_running. exists k, fn. split_and!; [done|done|].
  destruct (decide (k = key)) as [->|Hne].
  - unfold sink_passes, set_logger_level in *. simpl.
    rewrite lookup_insert_eq. rewrite Hold in Hpass. lia.
  - by apply sink_passes_set_logger_level_ne.
Qed.

Lemma flat_map_ext_elem {A B} (f g : A → list B) (l : list A) :
  (∀ x, x ∈ l → f x = g x) → flat_map f l = flat_map g l.
Proof.
  induction l as [|x l IH]; intros Hext; [done|]. simpl.
  rewrite Hext by (by left). rewrite IH; [done|].
  intros y Hy. apply Hext. by right.
Qed.

(** X20: a threshold may be set for a key that has no sink: nothing
    changes for the sinks there are, and the threshold waits for a sink
    registered under the key later, which is then filtered by it. *)
Theorem threshold_before_sink rs key level fn log_info :
  _loggers rs !! key = None →
  dispatch_running (set_logger_level rs key level) log_info
  = dispatch_running rs log_info
  ∧ (mk_sink_call key fn log_info
       ∈ dispatch_running
           (add_logger (set_logger_level rs key level) key fn) log_info
     ↔ severity_ord level <= severity_ord (verbosity log_info)).
Proof.
  intros Hnone. split.
  - unfold dispatch_running. apply flat_map_ext_elem.
    intros [k f] Hin%elem_of_map_items. simpl in *.
    rewrite lookup_insert_ne; [done|]. intros ->. congruence.
  - rewrite dispatch_running_registered by (simpl; apply lookup_insert_eq).
    unfold sink_passes. simpl. by rewrite lookup_insert_eq.
Qed.

(** X21: configuration calls compose as writes to a map: a second
    [set_logger_level] on a key overrides the first, calls on different
    keys commute, and so do [add_logger] on different keys and
    [add_logger] with [set_logger_level] on any keys. *)
Theorem configuration_calls_compose rs key1 key2 level1 level2 fn1 fn2 :
  set_logger_level (set_logger_level rs key1 level1) key1 level2
  = set_logger_level rs key1 level2
  ∧ (key1 ≠ key2 →
     set_logger_level (set_logger_level rs key1 level1) key2 level2
     = set_logger_level (set_logger_level rs key2 level2) key1 level1)
  ∧ (key1 ≠ key2 →
     add_logger (add_logger rs key1 fn1) key2 fn2
     = add_logger (add_logger rs key2 fn2) key1 fn1)
  ∧ add_logger (set_logger_level rs key1 level1) key2 fn2
    = set_logger_level (add_logger rs key2 fn2) key1 level1.
Proof.
  unfold set_logger_level, add_logger. simpl. split_and!.
  - by rewrite insert_insert_eq.
  - intros Hne. by rewrite insert_insert_ne.
  - intros Hne. by rewrite insert_insert_ne.
  - done.
Qed.

(** *** From the statement to the sinks *)

(** X22: one statement through the whole path, no other thread acting:
    made against a running resource with an empty queue of non-zero
    capacity, fed its fragments and destroyed, it is followed by a turn of
    the consumer that calls the sinks passed by the finished record, whose
    message is the fragments in order, when the severity is at least the
    global threshold, and that calls no sink at all when it is below; the
    queue is empty again either way. *)
Theorem statement_to_sinks policy rs blank now v src_file src_line comp tid
    fragments :
  _exit rs = false →
  elems (_log_queue rs) = [] →
  (0 < capacity (_log_queue rs))%nat →
  let statement :=
    foldl log_put (log_ctor rs blank now v src_file src_line comp tid)
      fragments in
  let record :=
    mk_logging_info now v src_file src_line comp tid
      (String.concat "" fragments) in
  let turn := pop_task_step (log_dtor policy statement rs) pc_running in
  turn.2
  = (if bool_decide (severity_ord (global_level rs) <= severity_ord v)
     then dispatch_running rs record else [])
  ∧ elems (_log_queue turn.1.1) = []
  ∧ turn.1.2 = pc_running.
Proof.
  intros Hexit Hempty Hroom statement record turn.
  subst statement turn. unfold log_ctor, severity_geb.
  destruct (Z.leb_spec (severity_ord (global_level rs)) (severity_ord v))
    as [Hpass|Hbelow].
  - rewrite bool_decide_eq_true_2 by done.
    rewrite log_put_accumulates by done.
    unfold log_dtor, push, push_with_haste, set_message. simpl.
    rewrite Hempty. simpl. apply Nat.ltb_lt in Hroom. rewrite Hroom. simpl.
    rewrite Hexit. by split_and!.
  - rewrite bool_decide_eq_false_2 by lia.
    rewrite log_put_discarded by done.
    unfold log_dtor. simpl. rewrite Hexit.
    unfold pop_with_timed_wait. rewrite Hempty. by split_and!.
Qed.

(** *** The built-in sinks behind the calls *)

Lemma the_builtin_sinks_in_order :
  map_items
    (<[UHD_FILE_LOGGER_KEY := fn_file_logger]>
       ({[UHD_CONSOLE_LOGGER_KEY := fn_console_log]} : gmap string log_fn_t))
  = [(UHD_CONSOLE_LOGGER_KEY, fn_console_log);
     (UHD_FILE_LOGGER_KEY, fn_file_logger)].
Proof. by vm_compute. Qed.

(** X23: a log file that cannot be opened does not stop the console: a
    resource constructed with the console enabled and [UHD_LOG_FILE]
    naming such a path has written the diagnostic to [std::cerr], holds a
    file backend that is not open, and a record dispatched by it and
    carried out on the sinks appends its console line to [std::clog] when
    it passes the console threshold and changes nothing else. *)
Theorem unwritable_log_file_leaves_console macros getenv fs cerr
    (rs : log_resource) F cerr' issued path what log_info clog :
  UHD_LOG_CONSOLE_DISABLE macros = false →
  getenv "UHD_LOG_FILE" = Some path →
  path ≠ "" →
  fs path = Some what →
  log_resource_ctor macros getenv fs cerr = Return (rs, F, cerr') issued →
  cerr' = cerr +:+ "Error opening log file: " +:+ what +:+ endl
  ∧ F = Some (mk_file_logger_backend (mk_ofstream false ""))
  ∧ ∃ console_level,
      logger_level rs !! "console" = Some console_level
      ∧ deliver to_simple_string put_thread_id put_severity macros
          (dispatch_running rs log_info) (mk_sinks_state clog F [])
        = mk_sinks_state
            (if bool_decide
                  (severity_ord console_level
                   <= severity_ord (verbosity log_info))
             then console_log to_simple_string put_thread_id put_severity
                    macros log_info clog
             else clog)
            F [].
Proof.
  intros Hconsole Henv Hpath Hfs Hctor.
  apply log_resource_ctor_sinks_inv in Hctor
    as (levels & loggers & Hc & Hfile).
  destruct Hc as [(Hdisabled & _)|(_ & [console_level ->] & ->)];
    [congruence|].
  assert (configured_log_file macros getenv = path) as Hconfigured.
  { unfold configured_log_file. rewrite Henv.
    by rewrite bool_decide_eq_true_2. }
  rewrite Hconfigured in Hfile.
  destruct Hfile as [(Hnone & _)|(_ & (backend & -> & Hbackend)
                                   & [file_level Hlevels] & Hloggers)];
    [congruence|].
  unfold file_logger_backend_ctor, ofstream_open in Hbackend.
  rewrite bool_decide_eq_true_2, Hfs in Hbackend by done.
  injection Hbackend as <- <-.
  split_and!; [done|done|].
  exists console_level. split.
  { rewrite Hlevels. unfold UHD_FILE_LOGGER_KEY, UHD_CONSOLE_LOGGER_KEY.
    rewrite lookup_insert_ne by done. apply lookup_singleton_eq. }
  unfold dispatch_running. rewrite Hloggers, Hlevels.
  rewrite the_builtin_sinks_in_order. cbn [flat_map fst snd].
  unfold UHD_FILE_LOGGER_KEY, UHD_CONSOLE_LOGGER_KEY.
  rewrite lookup_insert_ne by done.
  rewrite lookup_singleton_eq, lookup_insert_eq.
  unfold severity_ltb.
  destruct (Z.ltb_spec (severity_ord (verbosity log_info))
              (severity_ord console_level)) as [Hbelow|Hpass].
  - rewrite bool_decide_eq_false_2 by lia.
    by destruct (severity_ord (verbosity log_info) <? severity_ord file_level).
  - rewrite bool_decide_eq_true_2 by lia.
    by destruct (severity_ord (verbosity log_info) <? severity_ord file_level).
Qed.

Lemma deliver_cons macros (c : sink_call) calls (w : sinks_state) :
  deliver to_simple_string put_thread_id put_severity macros (c :: calls) w
  = deliver to_simple_string put_thread_id put_severity macros calls
      (invoke to_simple_string put_thread_id put_severity macros c w).
Proof. reflexivity. Qed.

(** X24: the sinks do not interfere: after a trace of calls is carried
    out, [std::clog] holds what it held followed by the console lines of
    the calls to [console_log], an open file backend has been given the
    file lines of the calls to the file closure, and the callables of the
    user have received their own calls, each in the order of the trace. *)
Theorem deliver_by_sink macros (calls : list sink_call) :
  ∀ w : sinks_state,
    let after :=
      deliver to_simple_string put_thread_id put_severity macros calls w in
    on_clog after
    = on_clog w
      +:+ String.concat ""
            (console_line to_simple_string put_thread_id put_severity macros
               <$> (call_info
                      <$> filter (λ c, call_fn c = fn_console_log) calls))
    ∧ user_calls after
      = user_calls w
        ++ omap (λ c, match call_fn c with
                      | fn_user id => Some (id, call_info c)
                      | _ => None
                      end) calls
    ∧ (∀ F,
         file_backend w = Some F →
         is_open (_file_stream F) = true →
         ∃ F',
           file_backend after = Some F'
           ∧ is_open (_file_stream F') = true
           ∧ written (_file_stream F')
             = written (_file_stream F)
               +:+ String.concat ""
                     (file_line to_simple_string put_thread_id put_severity
                        <$> (call_info
                               <$> filter (λ c, call_fn c = fn_file_logger)
                                     calls))).
Proof.
  induction calls as [|c calls IH]; intros w.
  - cbn. rewrite string_app_nil_r, app_nil_r. split_and!; [done..|].
    intros F HF Hopen. exists F. by rewrite string_app_nil_r.
  - cbv zeta. rewrite deliver_cons.
    destruct (IH (invoke to_simple_string put_thread_id put_severity macros c w))
      as (Hclog & Huser & Hfile).
    rewrite Hclog, Huser. clear Hclog Huser.
    rewrite !filter_cons. cbn [omap list_omap].
    unfold invoke in *.
    destruct (call_fn c) as [| |id] eqn:Hfn.
    + repeat case_decide; try congruence.
      cbn [on_clog user_calls file_backend] in *. split_and!.
      * rewrite !fmap_cons, concat_empty_cons, <- string_app_assoc.
        f_equal.
      * done.
      * done.
    + repeat case_decide; try congruence.
      cbn [on_clog user_calls file_backend] in *. split_and!; [done..|].
      intros F HF Hopen. rewrite HF in Hfile |- *.
      cbn [fmap option_fmap option_map] in Hfile |- *.
      destruct (Hfile _ eq_refl) as (F' & HF' & Hopen' & Hwritten).
      { by rewrite file_logger_backend_log_open. }
      exists F'. split_and!; [done..|].
      rewrite Hwritten, file_logger_backend_log_open by done.
      cbn [_file_stream written].
      by rewrite !fmap_cons, concat_empty_cons, string_app_assoc.
    + repeat case_decide; try congruence.
      cbn [on_clog user_calls file_backend] in *. split_and!; [done| |done].
      by rewrite <- app_assoc.
Qed.

End Properties.

(** ** Instances on the sample data *)

Lemma pop_task_delivers_iff_passes_witness :
  mk_sink_call "console" fn_console_log sample_info
    ∈ (pop_task_step sample_resource pc_running).2
  ↔ severity_ord info <= severity_ord (verbosity sample_info).
Proof.
  apply (pop_task_delivers_iff_passes sample_resource pc_running sample_info
           "console" fn_console_log); [done|reflexivity|reflexivity|reflexivity].
Defined.

Lemma log_statement_submit_iff_witness :
  elems (_log_queue
           (log_dtor drop_newest
              (foldl log_put
                 (log_ctor sample_resource sample_blank 9 error "b200.cpp" 7%N
                    "B200" 2%N)
                 ["over"; "flow"])
              sample_resource))
  = elems (_log_queue sample_resource)
    ++ [mk_logging_info 9 error "b200.cpp" 7%N "B200" 2%N "overflow"].
Proof.
  destruct (log_statement_submit_iff drop_newest sample_resource sample_resource
              sample_blank 9 error "b200.cpp" 7%N "B200" 2%N ["over"; "flow"])
    as (_ & _ & _ & _ & _ & Hqueued).
  apply Hqueued; simpl; lia.
Defined.

Lemma file_sink_open_failure_witness :
  ∃ F,
    file_logger_backend_ctor readonly_fs "/var/log/uhd.log" ""
    = Return (F, "Error opening log file: basic_ios::clear" +:+ endl) []
    ∧ is_open (_file_stream F) = false
    ∧ written (_file_stream F) = ""
    ∧ foldl
        (file_logger_backend_log sample_to_simple_string sample_put_thread_id
           sample_put_severity)
        F [sample_info; sample_error] = F.
Proof.
  destruct (file_sink_open_failure sample_to_simple_string sample_put_thread_id
              sample_put_severity readonly_fs "/var/log/uhd.log"
              "basic_ios::clear" "" [sample_info; sample_error])
    as (F & Hctor & Hclosed & Hnothing & _ & Hlater); [done|reflexivity|].
  exists F. by split_and!.
Defined.

Lemma exit_procedure_drains_queue_witness :
  (pop_task_run 4 (log_resource_dtor sample_resource) pc_running).1.2
  = pc_returned
  ∧ mk_sink_call "file" fn_file_logger sample_error
      ∈ (pop_task_run 4 (log_resource_dtor sample_resource) pc_running).2.
Proof.
  destruct (exit_procedure_drains_queue (log_resource_dtor sample_resource)
              pc_running) as (Hreturned & _ & _ & Hdelivered);
    [reflexivity|done|].
  split; [exact Hreturned|].
  apply Hdelivered.
  - apply list_elem_of_In. right. left. reflexivity.
  - reflexivity.
  - by vm_compute.
Defined.

Lemma file_line_format_witness :
  written
    (_file_stream
       (file_logger_backend_log sample_to_simple_string sample_put_thread_id
          sample_put_severity
          (mk_file_logger_backend (mk_ofstream true "")) sample_info))
  = "2016-Nov-02 10:00:00,0x7f3a,x300.cpp:42,WARNING,X300,link up" +:+ endl.
Proof.
  destruct (file_line_format sample_to_simple_string sample_put_thread_id
              sample_put_severity
              (mk_file_logger_backend (mk_ofstream true "")) sample_info)
    as (Hwritten & _ & _); [reflexivity|].
  exact Hwritten.
Defined.

Lemma default_global_level_off_witness :
  ∃ (rs : @log_resource Z N) F cerr issued,
    log_resource_ctor plain_macros empty_env writable_fs "" = Return (rs, F, cerr) issued
    ∧ global_level rs = off
    ∧ ∀ v, v ≠ off →
        log_dtor drop_newest
          (foldl log_put (log_ctor rs sample_blank 9 v "b200.cpp" 7%N "B200" 2%N)
             ["lost"])
          sample_resource
        = sample_resource.
Proof.
  destruct (default_global_level_off (ptime := Z) (thread_id_t := N)
              plain_macros empty_env writable_fs "")
    as [Hoff Hreturns]; [reflexivity|by left|].
  destruct Hreturns as (rs & F & cerr & issued & Hctor); [reflexivity..|].
  exists rs, F, cerr, issued. split; [exact Hctor|].
  destruct (Hoff rs F cerr issued Hctor) as (Hlevel & _ & Hdiscard).
  split; [exact Hlevel|].
  intros v Hv.
  apply (Hdiscard drop_newest rs sample_resource sample_blank 9 v "b200.cpp"
           7%N "B200" 2%N ["lost"] eq_refl Hv).
Defined.

Lemma configuration_frame_witness :
  logger_level (set_logger_level sample_resource "console" fatal) !! "file"
  = logger_level sample_resource !! "file"
  ∧ _loggers (add_logger sample_resource "console" (fn_user 8)) !! "udp"
    = _loggers sample_resource !! "udp".
Proof.
  destruct (configuration_frame sample_resource "console" fatal (fn_user 8))
    as ((_ & Hlevels & _) & (_ & Hsinks & _) & _).
  split; [apply Hlevels|apply Hsinks]; discriminate.
Defined.

(** C6 as worded fails: the message is written as it is, so a record whose
    message holds a line feed leaves two lines in the file. *)
Lemma file_line_two_lines :
  written
    (_file_stream
       (file_logger_backend_log sample_to_simple_string sample_put_thread_id
          sample_put_severity sample_open_backend sample_two_lines))
  = "2016-Nov-02 10:00:00,0x7f3a,log.cpp:12,INFO,LOG,a" +:+ endl
    +:+ "b" +:+ endl
  ∧ count_newlines
      (written
         (_file_stream
            (file_logger_backend_log sample_to_simple_string
               sample_put_thread_id sample_put_severity sample_open_backend
               sample_two_lines)))
    ≠ 1%nat.
Proof. split; [reflexivity|]. vm_compute. discriminate. Qed.

(** C7 as worded fails: with colour on the reset is written before the
    message, not after it, under either reading of when a reset is due. *)
Lemma console_reset_precedes_message :
  console_log sample_to_simple_string sample_put_thread_id sample_put_severity
    color_macros sample_error ""
  ≠ console_line_spec sample_to_simple_string sample_put_thread_id
      sample_put_severity false color_macros sample_error
  ∧ console_log sample_to_simple_string sample_put_thread_id sample_put_severity
      color_macros sample_error ""
    ≠ console_line_spec sample_to_simple_string sample_put_thread_id
        sample_put_severity true color_macros sample_error.
Proof. split; apply String.eqb_neq; vm_compute; reflexivity. Qed.

(** ** Worked evaluations *)

Example path_to_filename_unix :
  path_to_filename "/src/uhd/host/lib/usrp/x300.cpp" = "x300.cpp".
Proof. reflexivity. Qed.

Example path_to_filename_windows :
  path_to_filename "C:\uhd\host\log.cpp" = "log.cpp".
Proof. reflexivity. Qed.

Example path_to_filename_bare : path_to_filename "log.cpp" = "log.cpp".
Proof. reflexivity. Qed.

Example stoi_ignores_tail : stoi "3abc" = Return 3 [].
Proof. reflexivity. Qed.

Example stoi_int_max :
  stoi "2147483647" = Return 2147483647 []
  ∧ stoi "2147483648" = Throw std_out_of_range.
Proof. split; reflexivity. Qed.

Example console_log_verbose :
  console_log sample_to_simple_string sample_put_thread_id sample_put_severity
    verbose_macros sample_info ""
  = YELLOW +:+ "[2016-Nov-02 10:00:00] [0x7f3a] [x300.cpp:42] [WARNING] [X300] "
    +:+ RESET_COLORS +:+ "link up" +:+ endl.
Proof. reflexivity. Qed.

Example console_log_plain :
  console_log sample_to_simple_string sample_put_thread_id sample_put_severity
    plain_macros sample_info ""
  = "[WARNING] [X300] link up" +:+ endl.
Proof. reflexivity. Qed.

Example dispatch_running_sample :
  dispatch_running sample_resource sample_info
  = [ mk_sink_call "console" fn_console_log sample_info;
      mk_sink_call "udp" (fn_user 3) sample_info ].
Proof. vm_compute. reflexivity. Qed.

Example push_with_haste_full :
  let full := mk_bounded_buffer 2 [1; 2] in
  push_with_haste drop_newest 3 full = (full, false)
  ∧ push_with_haste evict_oldest 3 full = (mk_bounded_buffer 2 [2; 3], true).
Proof. split; reflexivity. Qed.

Example log_resource_ctor_sample :
  ∃ (rs : @log_resource Z N),
    log_resource_ctor plain_macros sample_env writable_fs ""
    = Return (rs, Some (mk_file_logger_backend (mk_ofstream true "")), "") []
    ∧ global_level rs = info
    ∧ logger_level rs !! "console" = Some warning
    ∧ logger_level rs !! "file" = Some trace
    ∧ map_items (_loggers rs)
      = [("console", fn_console_log); ("file", fn_file_logger)].
Proof.
  eexists. split; [reflexivity|]. split_and!; by vm_compute.
Qed.

(** ** Further instances on the sample data *)

Lemma path_to_filename_last_component_witness :
  ∃ dir,
    "/src/uhd/host/lib/usrp/x300.cpp"
    = dir +:+ path_to_filename "/src/uhd/host/lib/usrp/x300.cpp"
    ∧ free_of separators (path_to_filename "/src/uhd/host/lib/usrp/x300.cpp")
      = true
    ∧ (dir = ""
       ∨ ∃ parent (c : ascii), dir = parent +:+ String c "" ∧ c ∈ separators).
Proof.
  apply (path_to_filename_last_component "/src/uhd/host/lib/usrp/x300.cpp").
  reflexivity.
Defined.

Lemma path_to_filename_join_witness :
  path_to_filename ("C:\uhd\host" +:+ String "\"%char "log.cpp") = "log.cpp"
  ∧ path_to_filename "log.cpp" = "log.cpp".
Proof.
  apply (path_to_filename_join "C:\uhd\host" "log.cpp" "\"%char);
    [reflexivity|by right; left|reflexivity].
Defined.

Lemma verbosity_color_inj_witness : error = error.
Proof. apply (verbosity_color_inj error error). reflexivity. Defined.

Lemma _get_log_level_returned_level_witness :
  "INFO" = level_name debug
  ∨ (debug = debug ∧ ∀ named, "INFO" ≠ level_name named).
Proof.
  destruct (_get_log_level_returned_level "INFO" debug debug [])
    as (_ & _ & Hname); [reflexivity|].
  apply Hname. reflexivity.
Defined.

Lemma _get_log_level_ordinal_prefix_witness :
  _get_log_level (put_uint (Z.to_N (severity_ord warning)) +:+ "abc") debug
  = Return warning [].
Proof.
  apply (_get_log_level_ordinal_prefix warning debug "abc");
    [discriminate|reflexivity].
Defined.

Lemma file_logger_backend_log_sequence_witness :
  written
    (_file_stream
       (foldl
          (file_logger_backend_log sample_to_simple_string sample_put_thread_id
             sample_put_severity)
          sample_open_backend [sample_info; sample_error]))
  = "2016-Nov-02 10:00:00,0x7f3a,x300.cpp:42,WARNING,X300,link up" +:+ endl
    +:+ "2016-Nov-02 10:00:00,0x7f3a,b200.cpp:7,ERROR,B200,x" +:+ endl.
Proof.
  destruct (file_logger_backend_log_sequence sample_to_simple_string
              sample_put_thread_id sample_put_severity
              [sample_info; sample_error] sample_open_backend)
    as (Hwritten & _ & _); [reflexivity|].
  exact Hwritten.
Defined.

Lemma log_resource_ctor_sinks_witness :
  _loggers sample_constructed !! "console" = Some fn_console_log
  ∧ _loggers sample_constructed !! "file" = Some fn_file_logger
  ∧ (∀ key, key ≠ "console" → key ≠ "file" →
       _loggers sample_constructed !! key = None).
Proof.
  destruct (log_resource_ctor_sinks plain_macros sample_env writable_fs ""
              sample_constructed (Some sample_open_backend) "" [])
    as (Hconsole & Hfile & Hother & _); [by vm_compute|].
  split_and!; [exact Hconsole|exact Hfile|exact Hother].
Defined.

Lemma log_resource_ctor_env_level_witness :
  global_level sample_constructed = info.
Proof.
  apply (log_resource_ctor_env_level plain_macros sample_env writable_fs ""
           sample_constructed (Some sample_open_backend) "" [] info);
    [by left|by vm_compute].
Defined.

Lemma pop_task_step_sound_witness :
  head (elems (_log_queue sample_resource)) = Some sample_info
  ∧ _loggers sample_resource !! "udp" = Some (fn_user 3).
Proof.
  destruct (pop_task_step_sound sample_resource pc_running
              (mk_sink_call "udp" (fn_user 3) sample_info))
    as (Hhead & Hfn & _).
  - apply list_elem_of_In. vm_compute. right. left. reflexivity.
  - split; [exact Hhead|exact Hfn].
Defined.

Lemma pop_task_run_fifo_witness :
  pop_task_run 1 sample_resource pc_running
  = (set_log_queue sample_resource (mk_bounded_buffer 10 [sample_error]),
     pc_running,
     flat_map (dispatch_running sample_resource) [sample_info]).
Proof. apply (pop_task_run_fifo 1 sample_resource). reflexivity. Defined.

Lemma lower_threshold_keeps_deliveries_witness :
  mk_sink_call "console" fn_console_log sample_info
    ∈ dispatch_running (set_logger_level sample_resource "file" debug)
        sample_info.
Proof.
  apply (lower_threshold_keeps_deliveries sample_resource "file" error debug).
  - reflexivity.
  - simpl. lia.
  - apply list_elem_of_In. vm_compute. left. reflexivity.
Defined.

Lemma threshold_before_sink_witness :
  dispatch_running (set_logger_level sample_resource "syslog" fatal) sample_info
  = dispatch_running sample_resource sample_info
  ∧ (mk_sink_call "syslog" (fn_user 5) sample_info
       ∈ dispatch_running
           (add_logger (set_logger_level sample_resource "syslog" fatal)
              "syslog" (fn_user 5)) sample_info
     ↔ severity_ord fatal <= severity_ord (verbosity sample_info)).
Proof.
  apply (threshold_before_sink sample_resource "syslog" fatal (fn_user 5)
           sample_info).
  reflexivity.
Defined.

Lemma statement_to_sinks_witness :
  (pop_task_step
     (log_dtor drop_newest
        (foldl log_put
           (log_ctor sample_idle sample_blank 9 error "b200.cpp" 7%N "B200" 2%N)
           ["over"; "flow"])
        sample_idle)
     pc_running).2
  = (if bool_decide
          (severity_ord (global_level sample_idle) <= severity_ord error)
     then dispatch_running sample_idle
            (mk_logging_info 9 error "b200.cpp" 7%N "B200" 2%N "overflow")
     else []).
Proof.
  destruct (statement_to_sinks drop_newest sample_idle sample_blank 9 error
              "b200.cpp" 7%N "B200" 2%N ["over"; "flow"])
    as (Hcalls & _); [reflexivity|reflexivity|simpl; lia|].
  exact Hcalls.
Defined.

Lemma unwritable_log_file_leaves_console_witness :
  ∃ console_level,
    logger_level sample_degraded !! "console" = Some console_level
    ∧ deliver sample_to_simple_string sample_put_thread_id sample_put_severity
        plain_macros (dispatch_running sample_degraded sample_error)
        (mk_sinks_state ""
           (Some (mk_file_logger_backend (mk_ofstream false ""))) [])
      = mk_sinks_state
          (if bool_decide
                (severity_ord console_level
                 <= severity_ord (verbosity sample_error))
           then console_log sample_to_simple_string sample_put_thread_id
                  sample_put_severity plain_macros sample_error ""
           else "")
          (Some (mk_file_logger_backend (mk_ofstream false ""))) [].
Proof.
  destruct (unwritable_log_file_leaves_console sample_to_simple_string
              sample_put_thread_id sample_put_severity plain_macros sample_env
              readonly_fs "" sample_degraded
              (Some (mk_file_logger_backend (mk_ofstream false "")))
              ("Error opening log file: basic_ios::clear" +:+ endl) []
              "/tmp/uhd.log" "basic_ios::clear" sample_error "")
    as (_ & _ & Hconsole);
    [reflexivity|reflexivity|discriminate|reflexivity|by vm_compute|].
  exact Hconsole.
Defined.
